(** * opencode-kiro-auth: the account rotation pool

    A shallow embedding of [src/plugin/accounts.ts] (the [AccountManager]
    pool), of the quota helpers ([checkQuotaStatus], [sortAccountsByQuota],
    [src/plugin/usage.ts]) and of the locking wrapper of
    [src/plugin/storage.ts], with the properties of the specification
    stated over them.

    Conventions of the embedding.
    - A JavaScript [number] that holds a timestamp or a counter is a [Z];
      an optional property is an [option] ([None] is [undefined]).
    - [Date.now()] is an explicit argument [now] of every operation that
      reads the clock.
    - The pool's array of account objects is a [list]; an account object
      is identified by its position in that list (the objects of the
      array are pairwise distinct), and a mutation through a reference is
      an update at that position.
    - Counters and timestamps are integers; where the program divides
      and multiplies counters, the arithmetic is that of binary64, as in
      JavaScript.
    - A file is absent, holds text that does not parse, or holds a
      document of its kind; text that parses to JSON of another shape is
      outside the model.
    - The usage object is a map from ids to records; the id [__proto__],
      on which a property assignment sets the prototype of a JavaScript
      object instead of adding a key, is outside the model. *)

From stdpp Require Import gmap strings list fin_maps sorting.
From Stdlib Require Import ZArith Lia Permutation.
From Stdlib Require PrimFloat FloatOps SpecFloat.

Local Open Scope Z_scope.

(** ** JavaScript truthiness and the operators built on it *)

Module Js.

(** [!!x] for an optional number: [undefined] and [0] are falsy. *)
Definition truthy_num (x : option Z) : bool :=
  match x with
  | Some z => negb (z =? 0)
  | None => false
  end.

(** [!!x] for an optional string: [undefined] and the empty string are
    falsy. *)
Definition truthy_str (x : option string) : bool :=
  match x with
  | Some s => negb (String.eqb s "")
  | None => false
  end.

(** [x || 0] for an optional number. *)
Definition or_zero (x : option Z) : Z :=
  match x with
  | Some z => z
  | None => 0
  end.

(** [x || d] for an optional string. *)
Definition or_str (x : option string) (d : string) : string :=
  match x with
  | Some s => if String.eqb s "" then d else s
  | None => d
  end.

(** [x && now >= x] and [x && now < x] for an optional timestamp [x]:
    the comparison is only reached when [x] is truthy. *)
Definition set_and_reached (x : option Z) (now : Z) : bool :=
  match x with
  | Some z => negb (z =? 0) && (z <=? now)
  | None => false
  end.

Definition set_and_pending (x : option Z) (now : Z) : bool :=
  match x with
  | Some z => negb (z =? 0) && (now <? z)
  | None => false
  end.

End Js.

(** ** Data model ([src/plugin/types.ts] is not part of the sources; the
    records list the properties that [accounts.ts] reads and writes) *)

Module Acct.

Record ManagedAccount := mk {
  id : string;
  email : string;
  authMethod : string;
  region : option string;
  profileArn : option string;
  clientId : option string;
  clientSecret : option string;
  refreshToken : string;
  accessToken : string;
  expiresAt : Z;
  lastUsed : option Z;
  usedCount : option Z;
  limitCount : option Z;
  realEmail : option string;
  rateLimitResetTime : option Z;
  isHealthy : bool;
  unhealthyReason : option string;
  recoveryTime : option Z
}.

(** Assignments to single properties of an account object. *)
Definition set_lastUsed (v : option Z) (a : ManagedAccount) :=
  mk (id a) (email a) (authMethod a) (region a) (profileArn a) (clientId a)
     (clientSecret a) (refreshToken a) (accessToken a) (expiresAt a)
     v (usedCount a) (limitCount a) (realEmail a)
     (rateLimitResetTime a) (isHealthy a) (unhealthyReason a) (recoveryTime a).

Definition set_usedCount (v : option Z) (a : ManagedAccount) :=
  mk (id a) (email a) (authMethod a) (region a) (profileArn a) (clientId a)
     (clientSecret a) (refreshToken a) (accessToken a) (expiresAt a)
     (lastUsed a) v (limitCount a) (realEmail a)
     (rateLimitResetTime a) (isHealthy a) (unhealthyReason a) (recoveryTime a).

Definition set_limitCount (v : option Z) (a : ManagedAccount) :=
  mk (id a) (email a) (authMethod a) (region a) (profileArn a) (clientId a)
     (clientSecret a) (refreshToken a) (accessToken a) (expiresAt a)
     (lastUsed a) (usedCount a) v (realEmail a)
     (rateLimitResetTime a) (isHealthy a) (unhealthyReason a) (recoveryTime a).

Definition set_realEmail (v : option string) (a : ManagedAccount) :=
  mk (id a) (email a) (authMethod a) (region a) (profileArn a) (clientId a)
     (clientSecret a) (refreshToken a) (accessToken a) (expiresAt a)
     (lastUsed a) (usedCount a) (limitCount a) v
     (rateLimitResetTime a) (isHealthy a) (unhealthyReason a) (recoveryTime a).

Definition set_rateLimitResetTime (v : option Z) (a : ManagedAccount) :=
  mk (id a) (email a) (authMethod a) (region a) (profileArn a) (clientId a)
     (clientSecret a) (refreshToken a) (accessToken a) (expiresAt a)
     (lastUsed a) (usedCount a) (limitCount a) (realEmail a)
     v (isHealthy a) (unhealthyReason a) (recoveryTime a).

Definition set_isHealthy (v : bool) (a : ManagedAccount) :=
  mk (id a) (email a) (authMethod a) (region a) (profileArn a) (clientId a)
     (clientSecret a) (refreshToken a) (accessToken a) (expiresAt a)
     (lastUsed a) (usedCount a) (limitCount a) (realEmail a)
     (rateLimitResetTime a) v (unhealthyReason a) (recoveryTime a).

Definition set_unhealthyReason (v : option string) (a : ManagedAccount) :=
  mk (id a) (email a) (authMethod a) (region a) (profileArn a) (clientId a)
     (clientSecret a) (refreshToken a) (accessToken a) (expiresAt a)
     (lastUsed a) (usedCount a) (limitCount a) (realEmail a)
     (rateLimitResetTime a) (isHealthy a) v (recoveryTime a).

Definition set_recoveryTime (v : option Z) (a : ManagedAccount) :=
  mk (id a) (email a) (authMethod a) (region a) (profileArn a) (clientId a)
     (clientSecret a) (refreshToken a) (accessToken a) (expiresAt a)
     (lastUsed a) (usedCount a) (limitCount a) (realEmail a)
     (rateLimitResetTime a) (isHealthy a) (unhealthyReason a) v.

Definition set_accessToken (v : string) (a : ManagedAccount) :=
  mk (id a) (email a) (authMethod a) (region a) (profileArn a) (clientId a)
     (clientSecret a) (refreshToken a) v (expiresAt a)
     (lastUsed a) (usedCount a) (limitCount a) (realEmail a)
     (rateLimitResetTime a) (isHealthy a) (unhealthyReason a) (recoveryTime a).

Definition set_expiresAt (v : Z) (a : ManagedAccount) :=
  mk (id a) (email a) (authMethod a) (region a) (profileArn a) (clientId a)
     (clientSecret a) (refreshToken a) (accessToken a) v
     (lastUsed a) (usedCount a) (limitCount a) (realEmail a)
     (rateLimitResetTime a) (isHealthy a) (unhealthyReason a) (recoveryTime a).

Definition set_refreshToken (v : string) (a : ManagedAccount) :=
  mk (id a) (email a) (authMethod a) (region a) (profileArn a) (clientId a)
     (clientSecret a) v (accessToken a) (expiresAt a)
     (lastUsed a) (usedCount a) (limitCount a) (realEmail a)
     (rateLimitResetTime a) (isHealthy a) (unhealthyReason a) (recoveryTime a).

Definition set_profileArn (v : option string) (a : ManagedAccount) :=
  mk (id a) (email a) (authMethod a) (region a) v (clientId a)
     (clientSecret a) (refreshToken a) (accessToken a) (expiresAt a)
     (lastUsed a) (usedCount a) (limitCount a) (realEmail a)
     (rateLimitResetTime a) (isHealthy a) (unhealthyReason a) (recoveryTime a).

Definition set_clientId (v : option string) (a : ManagedAccount) :=
  mk (id a) (email a) (authMethod a) (region a) (profileArn a) v
     (clientSecret a) (refreshToken a) (accessToken a) (expiresAt a)
     (lastUsed a) (usedCount a) (limitCount a) (realEmail a)
     (rateLimitResetTime a) (isHealthy a) (unhealthyReason a) (recoveryTime a).

End Acct.

Abbreviation ManagedAccount := Acct.ManagedAccount.

(** The per-account record of the usage document. *)
Module Usage.

Record UsageMetadata := mk {
  usedCount : Z;
  limitCount : Z;
  realEmail : option string;
  lastSync : Z
}.

End Usage.

Abbreviation UsageMetadata := Usage.UsageMetadata.

(** ** Availability ([accounts.ts], [isAccountAvailable] and the filter
    callback of [getCurrentOrNext]) *)

(** [isAccountAvailable(account)], with [Date.now()] as [now].  The
    function reads the account and assigns nothing. *)
Definition isAccountAvailable (now : Z) (account : ManagedAccount) : bool :=
  if negb (Acct.isHealthy account) then
    if Js.set_and_reached (Acct.recoveryTime account) now then true
    else false
  else if Js.set_and_pending (Acct.rateLimitResetTime account) now then false
  else true.

(** The same call as a step on the account object: the result and the
    object as the call leaves it.  The body of [isAccountAvailable]
    contains no assignment, so the object is returned as it was. *)
Definition isAccountAvailable_call (now : Z) (account : ManagedAccount)
  : bool * ManagedAccount :=
  (isAccountAvailable now account, account).

(** The three assignments of the recovery branch of the filter callback:
    [isHealthy = true; delete unhealthyReason; delete recoveryTime]. *)
Definition recover (account : ManagedAccount) : ManagedAccount :=
  Acct.set_recoveryTime None
    (Acct.set_unhealthyReason None
       (Acct.set_isHealthy true account)).

(** The callback passed to [this.accounts.filter] in [getCurrentOrNext]:
    whether the account is kept, and the account object afterwards. *)
Definition filter_step (now : Z) (account : ManagedAccount)
  : bool * ManagedAccount :=
  if negb (Acct.isHealthy account) then
    if Js.set_and_reached (Acct.recoveryTime account) now
    then (true, recover account)
    else (false, account)
  else if Js.set_and_pending (Acct.rateLimitResetTime account) now
  then (false, account)
  else (true, account).

(** ** JavaScript numbers that may be infinite

    [getRemainingQuota] returns [Infinity] and the comparator of
    [sortAccountsByQuota] subtracts two such values, so the result of a
    comparator is a number that may be finite, infinite or [NaN]. *)

Module Num.

Inductive t := Fin (z : Z) | PosInf | NegInf | NaN.

(** [a - b] *)
Definition sub (a b : t) : t :=
  match a, b with
  | Fin x, Fin y => Fin (x - y)
  | Fin _, PosInf => NegInf
  | Fin _, NegInf => PosInf
  | PosInf, Fin _ => PosInf
  | PosInf, NegInf => PosInf
  | PosInf, PosInf => NaN
  | NegInf, Fin _ => NegInf
  | NegInf, PosInf => NegInf
  | NegInf, NegInf => NaN
  | NaN, _ => NaN
  | _, NaN => NaN
  end.

(** [v > 0] *)
Definition positive (v : t) : bool :=
  match v with
  | Fin z => 0 <? z
  | PosInf => true
  | NegInf | NaN => false
  end.

(** [a >= b] *)
Definition geb (a b : t) : bool :=
  match a, b with
  | NaN, _ | _, NaN => false
  | PosInf, _ => true
  | _, NegInf => true
  | Fin x, Fin y => y <=? x
  | Fin _, PosInf => false
  | NegInf, _ => false
  end.

End Num.

(** ** Binary64 arithmetic

    A JavaScript number is a binary64 float.  Where the program divides
    and multiplies counters, the integers of the model are taken as the
    numbers they are in JavaScript and the operations are the binary64
    ones. *)

Module Number.

(** The number an integer is in JavaScript: the binary64 value nearest
    to it (the integer itself up to [2^53] in magnitude). *)
Definition of_Z (z : Z) : PrimFloat.float :=
  FloatOps.SF2Prim
    (SpecFloat.binary_normalize FloatOps.prec FloatOps.emax z 0 false).

(** [Math.round(x)]: the integer closest to [x], a tie going up; an
    infinity or [NaN] is returned as it is. *)
Definition Math_round (x : PrimFloat.float) : Num.t :=
  match FloatOps.Prim2SF x with
  | SpecFloat.S754_zero _ => Num.Fin 0
  | SpecFloat.S754_finite negative m e =>
      let v := if negative then Z.neg m else Z.pos m in
      if 0 <=? e then Num.Fin (v * 2 ^ e)
      else Num.Fin ((2 * v + 2 ^ (- e)) / (2 * 2 ^ (- e)))
  | SpecFloat.S754_infinity negative =>
      if negative then Num.NegInf else Num.PosInf
  | SpecFloat.S754_nan => Num.NaN
  end.

End Number.

(** ** [Array.prototype.sort] with a comparator

    The sort is stable; the comparator's result [v] puts its first
    argument after its second exactly when [v > 0] (a result of [0] or
    [NaN] leaves the two in their order).  For a comparator that is a
    consistent ordering, as both comparators of this program are, the
    result is the stable sorted arrangement, computed here by insertion
    from the right. *)

Section ArraySort.

Context {A : Type} (cmp : A -> A -> Num.t).

Fixpoint sort_insert (x : A) (l : list A) : list A :=
  match l with
  | [] => [x]
  | y :: l' =>
      if Num.positive (cmp x y) then y :: sort_insert x l'
      else x :: y :: l'
  end.

Definition Array_sort (l : list A) : list A := foldr sort_insert [] l.

End ArraySort.

(** ** Quota evaluation ([src/plugin/usage.ts] and the quota helpers) *)

Inductive QuotaStatus := healthy | warning | exhausted.

Definition WARNING_THRESHOLD_PERCENT : Z := 80.

(** The object literal [{ usedCount, limitCount }] handed to the helpers
    of [usage.ts]. *)
Record UsageCounts := {
  uc_usedCount : Z;
  uc_limitCount : Z
}.

(** [usage.usedCount >= usage.limitCount] *)
Definition isQuotaExhausted (usage : UsageCounts) : bool :=
  uc_limitCount usage <=? uc_usedCount usage.

(** [Math.round((usedCount / limitCount) * 100)] in binary64, or [0]
    when the limit is falsy or not positive. *)
Definition calculateUsagePercentage (usage : UsageCounts) : Num.t :=
  if (uc_limitCount usage =? 0) || (uc_limitCount usage <=? 0)
  then Num.Fin 0
  else
    Number.Math_round
      (PrimFloat.mul
         (PrimFloat.div (Number.of_Z (uc_usedCount usage))
            (Number.of_Z (uc_limitCount usage)))
         (Number.of_Z 100)).

(** [Math.max(0, limitCount - usedCount)] *)
Definition getRemainingCount (usage : UsageCounts) : Z :=
  Z.max 0 (uc_limitCount usage - uc_usedCount usage).

(** The guard [!account.usedCount || !account.limitCount] shared by
    [checkQuotaStatus] and [getRemainingQuota]. *)
Definition counters_falsy (account : ManagedAccount) : bool :=
  negb (Js.truthy_num (Acct.usedCount account))
  || negb (Js.truthy_num (Acct.limitCount account)).

Definition counts_of (account : ManagedAccount) : UsageCounts :=
  {| uc_usedCount := Js.or_zero (Acct.usedCount account);
     uc_limitCount := Js.or_zero (Acct.limitCount account) |}.

Definition checkQuotaStatus (account : ManagedAccount) : QuotaStatus :=
  if counters_falsy account then healthy
  else
    let usage := counts_of account in
    if isQuotaExhausted usage then exhausted
    else
      let percentage := calculateUsagePercentage usage in
      if Num.geb percentage (Num.Fin WARNING_THRESHOLD_PERCENT) then warning
      else healthy.

Definition getRemainingQuota (account : ManagedAccount) : Num.t :=
  if counters_falsy account then Num.PosInf
  else Num.Fin (getRemainingCount (counts_of account)).

(** The comparator of [sortAccountsByQuota]: [bRemaining - aRemaining]. *)
Definition quota_cmp (a b : ManagedAccount) : Num.t :=
  Num.sub (getRemainingQuota b) (getRemainingQuota a).

Definition sortAccountsByQuota (accounts : list ManagedAccount)
  : list ManagedAccount :=
  Array_sort quota_cmp accounts.

Definition filterHealthyAccounts (accounts : list ManagedAccount)
  : list ManagedAccount :=
  List.filter
    (fun account =>
       if negb (Acct.isHealthy account) then false
       else
         match checkQuotaStatus account with
         | exhausted => false
         | _ => true
         end)
    accounts.

Definition getAccountWithMostQuota (accounts : list ManagedAccount)
  : option ManagedAccount :=
  let healthyAccounts := filterHealthyAccounts accounts in
  match healthyAccounts with
  | [] => None
  | _ => head (sortAccountsByQuota healthyAccounts)
  end.

(** ** The pool ([accounts.ts], class [AccountManager])

    The transient notification fields ([lastToastAccountIndex],
    [lastToastTime]) take no part in selection or persistence and are
    left out.  [cursor] is an array index: it starts at [0] and is only
    ever assigned an index of a list or a remainder, so it is a [nat]. *)

Inductive AccountSelectionStrategy := sticky | round_robin | lowest_usage.

Record AccountManager := mkManager {
  accounts : list ManagedAccount;
  usage : gmap string UsageMetadata;
  cursor : nat;
  strategy : AccountSelectionStrategy
}.

Definition with_accounts (accs : list ManagedAccount) (m : AccountManager) :=
  mkManager accs (usage m) (cursor m) (strategy m).

Definition with_usage (u : gmap string UsageMetadata) (m : AccountManager) :=
  mkManager (accounts m) u (cursor m) (strategy m).

Definition with_cursor (c : nat) (m : AccountManager) :=
  mkManager (accounts m) (usage m) c (strategy m).

(** The loop of the constructor, for one account: copy the counters of
    the usage record with the account's id, when there is one. *)
Definition sync_usage (u : gmap string UsageMetadata)
    (account : ManagedAccount) : ManagedAccount :=
  match u !! Acct.id account with
  | Some meta =>
      Acct.set_realEmail (Usage.realEmail meta)
        (Acct.set_limitCount (Some (Usage.limitCount meta))
           (Acct.set_usedCount (Some (Usage.usedCount meta)) account))
  | None => account
  end.

Definition constructor (accs : list ManagedAccount)
    (u : gmap string UsageMetadata) (s : AccountSelectionStrategy)
  : AccountManager :=
  mkManager (sync_usage u <$> accs) u 0%nat s.

Definition getAccountCount (m : AccountManager) : nat := length (accounts m).

(** [getMinWaitTime] *)
Definition getMinWaitTime (now : Z) (m : AccountManager) : Z :=
  let waitTimes :=
    List.filter (fun t => 0 <? t)
      ((fun a => Js.or_zero (Acct.rateLimitResetTime a) - now) <$> accounts m) in
  match waitTimes with
  | [] => 0
  | t :: ts => foldr Z.min t ts
  end.

(** *** Selection *)

(** The array after the filter callback ran over it. *)
Definition after_filter (now : Z) (accs : list ManagedAccount)
  : list ManagedAccount :=
  (fun a => (filter_step now a).2) <$> accs.

(** [availableAccounts]: the objects the callback kept, each with its
    position in [this.accounts], in array order. *)
Fixpoint available_from (now : Z) (i : nat) (accs : list ManagedAccount)
  : list (nat * ManagedAccount) :=
  match accs with
  | [] => []
  | a :: rest =>
      let r := filter_step now a in
      if r.1 then (i, r.2) :: available_from now (S i) rest
      else available_from now (S i) rest
  end.

Definition availableAccounts (now : Z) (accs : list ManagedAccount)
  : list (nat * ManagedAccount) :=
  available_from now 0%nat accs.

(** [x.lastUsed = now; x.usedCount = (x.usedCount || 0) + 1] *)
Definition touch (now : Z) (a : ManagedAccount) : ManagedAccount :=
  Acct.set_usedCount (Some (Js.or_zero (Acct.usedCount a) + 1))
    (Acct.set_lastUsed (Some now) a).

(** The comparator of the lowest-usage branch. *)
Definition usage_cmp (a b : nat * ManagedAccount) : Num.t :=
  let usageA := Js.or_zero (Acct.usedCount a.2) in
  let usageB := Js.or_zero (Acct.usedCount b.2) in
  if negb (usageA =? usageB) then Num.Fin (usageA - usageB)
  else
    let lastA := Js.or_zero (Acct.lastUsed a.2) in
    let lastB := Js.or_zero (Acct.lastUsed b.2) in
    Num.Fin (lastA - lastB).

(** [getCurrentOrNext()].  [now] is the clock reading at the top of the
    method; [now'] is the reading taken by the call of
    [isAccountAvailable] in the sticky branch.  The result is the
    position of the returned account object in [this.accounts] ([None]
    for [null]) and the pool afterwards. *)
Definition getCurrentOrNext (now now' : Z) (m : AccountManager)
  : option nat * AccountManager :=
  let accs := after_filter now (accounts m) in
  let available := availableAccounts now (accounts m) in
  let m1 := with_accounts accs m in
  match available with
  | [] => (None, m1)
  | first :: _ =>
      match strategy m with
      | sticky =>
          let fallback :=
            (Some first.1,
             with_cursor first.1
               (with_accounts (alter (touch now) first.1 accs) m1)) in
          match accs !! cursor m with
          | Some currentAccount =>
              if isAccountAvailable now' currentAccount
              then (Some (cursor m),
                    with_accounts (alter (touch now) (cursor m) accs) m1)
              else fallback
          | None => fallback
          end
      | round_robin =>
          match available !! (cursor m mod length available)%nat with
          | Some account =>
              (Some account.1,
               with_cursor ((cursor m + 1) mod length available)%nat
                 (with_accounts (alter (touch now) account.1 accs) m1))
          | None => (None, m1)
          end
      | lowest_usage =>
          match Array_sort usage_cmp available with
          | selected :: _ =>
              (Some selected.1,
               with_cursor selected.1
                 (with_accounts (alter (touch now) selected.1 accs) m1))
          | [] => (None, m1)
          end
      end
  end.

(** The account object that a call returned, read in the pool the call
    left behind. *)
Definition returned (r : option nat * AccountManager) : option ManagedAccount :=
  match r.1 with
  | Some i => accounts r.2 !! i
  | None => None
  end.

(** *** Mutators *)

(** [this.accounts.findIndex((a) => a.id === id)] *)
Definition findIndex (accountId : string) (accs : list ManagedAccount)
  : option nat :=
  fst <$> list_find (fun a => Acct.id a = accountId) accs.

(** The metadata argument of [updateUsage]. *)
Record UsageUpdate := {
  upd_usedCount : Z;
  upd_limitCount : Z;
  upd_realEmail : option string
}.

Definition apply_usage (metadata : UsageUpdate) (a : ManagedAccount)
  : ManagedAccount :=
  let a1 :=
    Acct.set_limitCount (Some (upd_limitCount metadata))
      (Acct.set_usedCount (Some (upd_usedCount metadata)) a) in
  if Js.truthy_str (upd_realEmail metadata)
  then Acct.set_realEmail (upd_realEmail metadata) a1
  else a1.

(** [updateUsage(accountId, metadata)].  The usage record is written
    whether or not an account has the id.  The write is a property
    assignment on the usage object, which adds or replaces the key
    [accountId]; for the id [__proto__] such an assignment may set the
    prototype of the object instead, and that id is outside the model. *)
Definition updateUsage (now : Z) (accountId : string) (metadata : UsageUpdate)
    (m : AccountManager) : AccountManager :=
  let accs :=
    match findIndex accountId (accounts m) with
    | Some i => alter (apply_usage metadata) i (accounts m)
    | None => accounts m
    end in
  with_usage
    (<[accountId :=
         Usage.mk (upd_usedCount metadata) (upd_limitCount metadata)
                  (upd_realEmail metadata) now]> (usage m))
    (with_accounts accs m).

Definition addAccount (account : ManagedAccount) (m : AccountManager)
  : AccountManager :=
  match findIndex (Acct.id account) (accounts m) with
  | None => with_accounts (accounts m ++ [account]) m
  | Some index => with_accounts (<[index := account]> (accounts m)) m
  end.

Definition removeAccount (account : ManagedAccount) (m : AccountManager)
  : AccountManager :=
  let accs :=
    List.filter
      (fun a => negb (String.eqb (Acct.id a) (Acct.id account)))
      (accounts m) in
  let u := delete (Acct.id account) (usage m) in
  let c :=
    if (length accs <=? cursor m)%nat && (0 <? length accs)%nat
    then (length accs - 1)%nat
    else if (length accs =? 0)%nat then 0%nat
    else cursor m in
  mkManager accs u c (strategy m).

Definition markRateLimited (now : Z) (account : ManagedAccount)
    (retryAfterMs : Z) (m : AccountManager) : AccountManager :=
  match findIndex (Acct.id account) (accounts m) with
  | Some accountIndex =>
      with_accounts
        (alter (Acct.set_rateLimitResetTime (Some (now + retryAfterMs)))
               accountIndex (accounts m)) m
  | None => m
  end.

Definition markUnhealthy (account : ManagedAccount) (reason : string)
    (recoveryTime : option Z) (m : AccountManager) : AccountManager :=
  match findIndex (Acct.id account) (accounts m) with
  | Some accountIndex =>
      with_accounts
        (alter
           (fun acc =>
              Acct.set_recoveryTime recoveryTime
                (Acct.set_unhealthyReason (Some reason)
                   (Acct.set_isHealthy false acc)))
           accountIndex (accounts m)) m
  | None => m
  end.

(** [updateFromAuth] calls [decodeRefreshToken] of [src/kiro/auth.ts],
    which is not part of the sources: the codec is a parameter. *)

Record KiroAuthDetails := {
  auth_refresh : string;
  auth_access : string;
  auth_expires : Z;
  auth_email : option string
}.

Record RefreshParts := {
  parts_refreshToken : string;
  parts_profileArn : option string;
  parts_clientId : option string
}.

Definition ANONYMOUS_EMAIL : string := "builder-id@aws.amazon.com".

Section Codec.

Variable decodeRefreshToken : string -> RefreshParts.

Definition apply_auth (now : Z) (auth : KiroAuthDetails) (acc : ManagedAccount)
  : ManagedAccount :=
  let a1 := Acct.set_accessToken (auth_access auth) acc in
  let a2 := Acct.set_expiresAt (auth_expires auth) a1 in
  let a3 := Acct.set_lastUsed (Some now) a2 in
  let a4 :=
    if Js.truthy_str (auth_email auth)
       && negb (String.eqb (Js.or_str (auth_email auth) "") ANONYMOUS_EMAIL)
    then Acct.set_realEmail (auth_email auth) a3
    else a3 in
  let parts := decodeRefreshToken (auth_refresh auth) in
  let a5 := Acct.set_refreshToken (parts_refreshToken parts) a4 in
  let a6 :=
    if Js.truthy_str (parts_profileArn parts)
    then Acct.set_profileArn (parts_profileArn parts) a5
    else a5 in
  if Js.truthy_str (parts_clientId parts)
  then Acct.set_clientId (parts_clientId parts) a6
  else a6.

Definition updateFromAuth (now : Z) (account : ManagedAccount)
    (auth : KiroAuthDetails) (m : AccountManager) : AccountManager :=
  match findIndex (Acct.id account) (accounts m) with
  | Some accountIndex =>
      with_accounts (alter (apply_auth now auth) accountIndex (accounts m)) m
  | None => m
  end.

End Codec.

(** ** Persistence ([src/plugin/storage.ts], and [loadFromDisk] and
    [saveToDisk] of [accounts.ts]) *)

(** The entries of the account document: an account without its usage
    fields and [lastUsed]. *)
Module Meta.

Record AccountMetadata := mk {
  id : string;
  email : string;
  authMethod : string;
  region : option string;
  profileArn : option string;
  clientId : option string;
  clientSecret : option string;
  refreshToken : string;
  accessToken : string;
  expiresAt : Z;
  rateLimitResetTime : option Z;
  isHealthy : bool;
  unhealthyReason : option string;
  recoveryTime : option Z
}.

End Meta.

Abbreviation AccountMetadata := Meta.AccountMetadata.

Record AccountStorage := {
  as_version : Z;
  as_accounts : list AccountMetadata;
  as_activeIndex : Z
}.

Record UsageStorage := {
  us_version : Z;
  us_usage : gmap string UsageMetadata
}.

(** [KIRO_CONSTANTS.DEFAULT_REGION]; [src/constants.ts] is not part of the
    sources, the value is the default region the README documents. *)
Definition DEFAULT_REGION : string := "us-east-1".

(** The callback of [this.accounts.map] in [saveToDisk]. *)
Definition to_metadata (account : ManagedAccount) : AccountMetadata :=
  Meta.mk (Acct.id account) (Acct.email account) (Acct.authMethod account)
    (Acct.region account) (Acct.profileArn account) (Acct.clientId account)
    (Acct.clientSecret account) (Acct.refreshToken account)
    (Acct.accessToken account) (Acct.expiresAt account)
    (Acct.rateLimitResetTime account) (Acct.isHealthy account)
    (Acct.unhealthyReason account) (Acct.recoveryTime account).

(** The callback of [storage.accounts.map] in [loadFromDisk]; the
    properties it does not list ([lastUsed] and the usage fields) are
    [undefined] in the new object. *)
Definition of_metadata (meta : AccountMetadata) : ManagedAccount :=
  Acct.mk (Meta.id meta) (Meta.email meta) (Meta.authMethod meta)
    (Some (Js.or_str (Meta.region meta) DEFAULT_REGION))
    (Meta.profileArn meta) (Meta.clientId meta) (Meta.clientSecret meta)
    (Meta.refreshToken meta) (Meta.accessToken meta) (Meta.expiresAt meta)
    None None None None
    (Meta.rateLimitResetTime meta) (Meta.isHealthy meta)
    (Meta.unhealthyReason meta) (Meta.recoveryTime meta).

(** *** The file system and the calls made on it

    The two documents live in two files.  A file is absent, holds text
    that [JSON.parse] rejects, or holds a document of its kind;
    [JSON.stringify] followed by [JSON.parse] gives the document back (a
    property that is [undefined] is left out of the text and is
    [undefined] again after parsing).  Text that parses to JSON of
    another shape, which [loadAccounts] and [loadUsage] would return as
    it is, is not a state of a [File].  Every call of the file system, of the lock library and of
    the logger is recorded in a trace; whether a call fails is decided by
    a fault oracle. *)

Inductive DocKind := accounts_kind | usage_kind.

Inductive File (D : Type) := Absent | Unparsable | Holds (d : D).
Arguments Absent {D}.
Arguments Unparsable {D}.
Arguments Holds {D} d.

Record Disk := {
  accountsFile : File AccountStorage;
  usageFile : File UsageStorage
}.

Inductive Call :=
| fs_access (k : DocKind)
| fs_mkdir (k : DocKind)
| fs_writeFile (k : DocKind)
| fs_writeTemp (k : DocKind)
| fs_rename (k : DocKind)
| fs_readFile (k : DocKind)
| lockfile_lock (k : DocKind)
| lock_release (k : DocKind)
| logger_error
| logger_warn.

Inductive Error :=
| CallFailed (c : Call)
| NoSuchFile (k : DocKind)
| SyntaxError (k : DocKind).

Record World := {
  disk : Disk;
  trace : list Call
}.

Definition Faults := Call -> bool.

(** A computation: given the oracle and the world, the world afterwards
    and either the exception thrown or the value returned. *)
Definition IO (A : Type) : Type := Faults -> World -> World * (Error + A).

Definition io_ret {A} (a : A) : IO A := fun _ w => (w, inr a).

Definition io_bind {A B} (f : A -> IO B) (c : IO A) : IO B :=
  fun faults w =>
    match c faults w with
    | (w', inl e) => (w', inl e)
    | (w', inr a) => f a faults w'
    end.

#[global] Instance IO_ret : MRet IO := @io_ret.
#[global] Instance IO_bind : MBind IO := @io_bind.

Definition throw {A} (e : Error) : IO A := fun _ w => (w, inl e).

(** [try { body } catch (e) { handler e }] *)
Definition try_catch {A} (body : IO A) (handler : Error -> IO A) : IO A :=
  fun faults w =>
    match body faults w with
    | (w', inl e) => handler e faults w'
    | (w', inr a) => (w', inr a)
    end.

Definition record (c : Call) (w : World) : World :=
  {| disk := disk w; trace := trace w ++ [c] |}.

(** A call that may fail. *)
Definition call (c : Call) : IO unit :=
  fun faults w =>
    if faults c then (record c w, inl (CallFailed c))
    else (record c w, inr tt).

(** A call of the logger: it is recorded and never throws. *)
Definition log (c : Call) : IO unit := fun _ w => (record c w, inr tt).

Definition file_exists (k : DocKind) (d : Disk) : bool :=
  match k with
  | accounts_kind =>
      match accountsFile d with Absent => false | _ => true end
  | usage_kind =>
      match usageFile d with Absent => false | _ => true end
  end.

Definition put_accounts (f : File AccountStorage) : IO unit :=
  fun _ w =>
    ({| disk := {| accountsFile := f; usageFile := usageFile (disk w) |};
        trace := trace w |}, inr tt).

Definition put_usage (f : File UsageStorage) : IO unit :=
  fun _ w =>
    ({| disk := {| accountsFile := accountsFile (disk w); usageFile := f |};
        trace := trace w |}, inr tt).

Definition defaultStorage : AccountStorage :=
  {| as_version := 1; as_accounts := []; as_activeIndex := -1 |}.

Definition defaultUsage : UsageStorage :=
  {| us_version := 1; us_usage := ∅ |}.

(** [fs.access(path)]: throws when the call fails or the file is absent. *)
Definition must_exist (k : DocKind) : IO unit :=
  fun _ w =>
    if file_exists k (disk w) then (w, inr tt) else (w, inl (NoSuchFile k)).

Definition access (k : DocKind) : IO unit :=
  call (fs_access k) ;; must_exist k.

(** [fs.writeFile(path, JSON.stringify(default))] *)
Definition write_default (k : DocKind) : IO unit :=
  call (fs_writeFile k) ;;
  match k with
  | accounts_kind => put_accounts (Holds defaultStorage)
  | usage_kind => put_usage (Holds defaultUsage)
  end.

Definition ensureFileExists (k : DocKind) : IO unit :=
  try_catch (access k)
    (fun _ => call (fs_mkdir k) ;; write_default k).

(** [withFileLock(path, type, fn)].  The local variable [release] is set
    by the first statement of the [try] block and read by the [finally]
    block; the three blocks are written out on the world. *)
Definition withFileLock {T} (k : DocKind) (fn : IO T) : IO T :=
  fun faults w =>
    match ensureFileExists k faults w with
    | (w1, inl e) => (w1, inl e)
    | (w1, inr _) =>
        (* try { release = await lockfile.lock(...); return await fn(); } *)
        let '(w2, release, r) :=
          match call (lockfile_lock k) faults w1 with
          | (w2, inl e) => (w2, false, inl e)
          | (w2, inr _) =>
              let '(w3, r) := fn faults w2 in (w3, true, r)
          end in
        (* catch (error) { logger.error(...); throw error; } *)
        let w3 :=
          match r with
          | inl _ => record logger_error w2
          | inr _ => w2
          end in
        (* finally { if (release) { try { await release(); }
                                    catch { logger.warn(...); } } } *)
        let w4 :=
          if release then
            match call (lock_release k) faults w3 with
            | (w4, inl _) => record logger_warn w4
            | (w4, inr _) => w4
            end
          else w3 in
        (w4, r)
    end.

(** The body passed to [withFileLock] by [saveAccounts] and [saveUsage]:
    write a temporary file, then rename it over the document. *)
Definition replace_accounts (storage : AccountStorage) : IO unit :=
  call (fs_writeTemp accounts_kind) ;;
  call (fs_rename accounts_kind) ;;
  put_accounts (Holds storage).

Definition replace_usage (storage : UsageStorage) : IO unit :=
  call (fs_writeTemp usage_kind) ;;
  call (fs_rename usage_kind) ;;
  put_usage (Holds storage).

Definition saveAccounts (storage : AccountStorage) : IO unit :=
  withFileLock accounts_kind (replace_accounts storage).

Definition saveUsage (storage : UsageStorage) : IO unit :=
  withFileLock usage_kind (replace_usage storage).

(** [fs.readFile] followed by [JSON.parse]. *)
Definition parse_accounts : IO AccountStorage :=
  fun _ w =>
    match accountsFile (disk w) with
    | Absent => (w, inl (NoSuchFile accounts_kind))
    | Unparsable => (w, inl (SyntaxError accounts_kind))
    | Holds d => (w, inr d)
    end.

Definition parse_usage : IO UsageStorage :=
  fun _ w =>
    match usageFile (disk w) with
    | Absent => (w, inl (NoSuchFile usage_kind))
    | Unparsable => (w, inl (SyntaxError usage_kind))
    | Holds d => (w, inr d)
    end.

Definition read_accounts : IO AccountStorage :=
  call (fs_readFile accounts_kind) ;; parse_accounts.

Definition read_usage : IO UsageStorage :=
  call (fs_readFile usage_kind) ;; parse_usage.

Definition loadAccounts : IO AccountStorage :=
  try_catch (ensureFileExists accounts_kind ;; read_accounts)
    (fun _ => log logger_error ;; mret defaultStorage).

Definition loadUsage : IO UsageStorage :=
  try_catch (ensureFileExists usage_kind ;; read_usage)
    (fun _ => mret defaultUsage).

(** [AccountManager.loadFromDisk(strategy?)] *)
Definition loadFromDisk (s : option AccountSelectionStrategy)
  : IO AccountManager :=
  storage ← loadAccounts;
  usageStorage ← loadUsage;
  mret (constructor (of_metadata <$> as_accounts storage)
          (us_usage usageStorage) (default sticky s)).

(** [saveToDisk()] *)
Definition saveToDisk (m : AccountManager) : IO unit :=
  saveAccounts
    {| as_version := 1;
       as_accounts := to_metadata <$> accounts m;
       as_activeIndex := Z.of_nat (cursor m) |} ;;
  saveUsage {| us_version := 1; us_usage := usage m |}.

(** No call fails. *)
Definition no_faults : Faults := fun _ => false.

(** ** The pool as a state machine

    The public operations of the pool, each with the arguments of the
    call and the clock readings it takes; [saveToDisk] runs against the
    world under a fault oracle of its own. *)

Inductive Op :=
| OpGetCurrentOrNext (now now' : Z)
| OpUpdateUsage (now : Z) (accountId : string) (metadata : UsageUpdate)
| OpAddAccount (account : ManagedAccount)
| OpRemoveAccount (account : ManagedAccount)
| OpUpdateFromAuth (now : Z) (account : ManagedAccount) (auth : KiroAuthDetails)
| OpMarkRateLimited (now : Z) (account : ManagedAccount) (retryAfterMs : Z)
| OpMarkUnhealthy (account : ManagedAccount) (reason : string)
    (recoveryTime : option Z)
| OpSaveToDisk (faults : Faults).

Definition State : Type := AccountManager * World.

Section Machine.

Variable decodeRefreshToken : string -> RefreshParts.

Definition step (op : Op) (st : State) : State :=
  let '(m, w) := st in
  match op with
  | OpGetCurrentOrNext now now' => ((getCurrentOrNext now now' m).2, w)
  | OpUpdateUsage now accountId metadata =>
      (updateUsage now accountId metadata m, w)
  | OpAddAccount account => (addAccount account m, w)
  | OpRemoveAccount account => (removeAccount account m, w)
  | OpUpdateFromAuth now account auth =>
      (updateFromAuth decodeRefreshToken now account auth m, w)
  | OpMarkRateLimited now account retryAfterMs =>
      (markRateLimited now account retryAfterMs m, w)
  | OpMarkUnhealthy account reason recoveryTime =>
      (markUnhealthy account reason recoveryTime m, w)
  | OpSaveToDisk faults => (m, (saveToDisk m faults w).1)
  end.

Definition run (ops : list Op) (st : State) : State :=
  foldl (fun st op => step op st) st ops.

End Machine.




(** Consecutive calls of [getCurrentOrNext], one per pair of clock
    readings: the positions returned and the pool afterwards. *)
Fixpoint select_many (times : list (Z * Z)) (m : AccountManager)
  : list (option nat) * AccountManager :=
  match times with
  | [] => ([], m)
  | t :: rest =>
      let r := getCurrentOrNext t.1 t.2 m in
      let rs := select_many rest r.2 in
      (r.1 :: rs.1, rs.2)
  end.

(** The positions of the available accounts are [av] at each of the
    calls of [select_many]. *)
Fixpoint available_stays (av : list nat) (times : list (Z * Z))
    (m : AccountManager) : Prop :=
  match times with
  | [] => True
  | t :: rest =>
      (availableAccounts t.1 (accounts m)).*1 = av
      ∧ available_stays av rest (getCurrentOrNext t.1 t.2 m).2
  end.

(** ** The statements of the specification, in its own words *)

(** The availability predicate as section 4.3 of the specification
    writes it: (healthy, or the recovery time is set and reached) and
    (no rate-limit reset time, or it is reached). *)
Definition isAvailable_spec (now : Z) (a : ManagedAccount) : bool :=
  (Acct.isHealthy a
   || match Acct.recoveryTime a with
      | Some r => r <=? now
      | None => false
      end)
  && match Acct.rateLimitResetTime a with
     | Some t => t <=? now
     | None => true
     end.

(** Some call [c1] is recorded in the trace before some call [c2]; the
    specification gives the order of [withLock] as: the lock is taken
    before the file is ensured. *)
Definition precedes (c1 c2 : Call) (tr : list Call) : Prop :=
  ∃ i j : nat, tr !! i = Some c1 ∧ tr !! j = Some c2 ∧ (i < j)%nat.

(** The fields that [saveToDisk] writes to the account document. *)
Definition same_persisted (a a' : ManagedAccount) : Prop :=
  Acct.id a' = Acct.id a
  ∧ Acct.email a' = Acct.email a
  ∧ Acct.authMethod a' = Acct.authMethod a
  ∧ Acct.region a' = Acct.region a
  ∧ Acct.profileArn a' = Acct.profileArn a
  ∧ Acct.clientId a' = Acct.clientId a
  ∧ Acct.clientSecret a' = Acct.clientSecret a
  ∧ Acct.refreshToken a' = Acct.refreshToken a
  ∧ Acct.accessToken a' = Acct.accessToken a
  ∧ Acct.expiresAt a' = Acct.expiresAt a
  ∧ Acct.rateLimitResetTime a' = Acct.rateLimitResetTime a
  ∧ Acct.isHealthy a' = Acct.isHealthy a
  ∧ Acct.unhealthyReason a' = Acct.unhealthyReason a
  ∧ Acct.recoveryTime a' = Acct.recoveryTime a.

(** The usage fields of [a'] are those of the record of the usage map
    [u] under the id of [a'] (and unset when [u] has no such record). *)
Definition usage_from (u : gmap string UsageMetadata) (a' : ManagedAccount)
  : Prop :=
  Acct.usedCount a' = Usage.usedCount <$> u !! Acct.id a'
  ∧ Acct.limitCount a' = Usage.limitCount <$> u !! Acct.id a'
  ∧ Acct.realEmail a' = (u !! Acct.id a') ≫= Usage.realEmail.

(** The region is set: a non-empty string. *)
Definition region_set (a : ManagedAccount) : Prop :=
  Js.truthy_str (Acct.region a) = true.

(** Everything of an account except the three recovery fields. *)
Definition same_but_recovery (a a' : ManagedAccount) : Prop :=
  Acct.id a' = Acct.id a
  ∧ Acct.email a' = Acct.email a
  ∧ Acct.authMethod a' = Acct.authMethod a
  ∧ Acct.region a' = Acct.region a
  ∧ Acct.profileArn a' = Acct.profileArn a
  ∧ Acct.clientId a' = Acct.clientId a
  ∧ Acct.clientSecret a' = Acct.clientSecret a
  ∧ Acct.refreshToken a' = Acct.refreshToken a
  ∧ Acct.accessToken a' = Acct.accessToken a
  ∧ Acct.expiresAt a' = Acct.expiresAt a
  ∧ Acct.lastUsed a' = Acct.lastUsed a
  ∧ Acct.usedCount a' = Acct.usedCount a
  ∧ Acct.limitCount a' = Acct.limitCount a
  ∧ Acct.realEmail a' = Acct.realEmail a
  ∧ Acct.rateLimitResetTime a' = Acct.rateLimitResetTime a.

(** An account with the given quota counters and everything else plain:
    healthy, not rate limited, never used. *)
Definition plain_account (name : string) (used limit : option Z)
  : ManagedAccount :=
  Acct.mk name "user@example.com" "social" (Some "us-east-1") None None None
    "refresh" "access" 0 None used limit None None true None None.


(** [a] ranks at least as high as [b]: its remaining quota is at least
    that of [b]. *)
Definition remaining_ge (a b : ManagedAccount) : Prop :=
  Num.geb (getRemainingQuota a) (getRemainingQuota b) = true.

(** ** Concrete inputs *)

(** An unhealthy account whose recovery time has passed and whose
    rate-limit reset time is still ahead. *)
Definition recovered_but_limited : ManagedAccount :=
  Acct.mk "acc-1" "user@example.com" "social" (Some "us-east-1") None None
    None "refresh" "access" 0 None None None None
    (Some 1000) false (Some "quota") (Some 100).

(** A pool that holds just that account. *)
Definition limited_pool (s : AccountSelectionStrategy) : AccountManager :=
  mkManager [recovered_but_limited] ∅ 0%nat s.

(** An unhealthy account whose recovery time has passed. *)
Definition recovering : ManagedAccount :=
  Acct.mk "acc-2" "user@example.com" "social" (Some "us-east-1") None None
    None "refresh" "access" 0 None None None None
    None false (Some "quota") (Some 100).

(** Five requests used against a limit of zero. *)
Definition used_without_limit : ManagedAccount :=
  plain_account "acc-3" (Some 5) (Some 0).

(** An account with 950 requests left, and a fresh one with a limit of
    100 of which nothing is used yet. *)
Definition mostly_free : ManagedAccount :=
  plain_account "acc-4" (Some 50) (Some 1000).

Definition fresh_small : ManagedAccount :=
  plain_account "acc-5" (Some 0) (Some 100).

(** A round-robin pool of three accounts, the second unhealthy with no
    recovery time, with the cursor at 5; and two pairs of clock
    readings. *)
Definition rr_pool : AccountManager :=
  mkManager
    [plain_account "acc-a" None None;
     Acct.set_isHealthy false (plain_account "acc-b" None None);
     plain_account "acc-c" None None]
    ∅ 5%nat round_robin.

Definition rr_times : list (Z * Z) := [(10, 10); (20, 20)].

(** The pool of the lowest-usage scenario of the specification: A has
    served 5 requests, B 1 and C 3; none has a [lastUsed] stamp. *)
Definition lu_pool : AccountManager :=
  mkManager
    [plain_account "A" (Some 5) None;
     plain_account "B" (Some 1) None;
     plain_account "C" (Some 3) None]
    ∅ 0%nat lowest_usage.

(** A world with neither document on disk and nothing recorded. *)
Definition empty_world : World :=
  {| disk := {| accountsFile := Absent; usageFile := Absent |};
     trace := [] |}.

(** The oracle under which taking the lock of the account document
    fails and every other call succeeds. *)
Definition lock_fails : Faults :=
  fun c =>
    match c with
    | lockfile_lock accounts_kind => true
    | _ => false
    end.

(** A body for [withFileLock] that returns 7 and touches nothing. *)
Definition return_seven : IO Z := mret 7.

(** A codec that returns the string as the refresh token and nothing
    else. *)
Definition plain_codec (refresh : string) : RefreshParts :=
  {| parts_refreshToken := refresh;
     parts_profileArn := None;
     parts_clientId := None |}.



(** An account whose quota is used up, and the snapshot that says so. *)
Definition spent : ManagedAccount := plain_account "acc-6" None None.

Definition spent_update : Op :=
  OpUpdateUsage 2 "acc-6"
    {| upd_usedCount := 100; upd_limitCount := 100; upd_realEmail := None |}.

(** A run that selects, syncs the usage of B, removes A, saves and adds
    an account. *)
Definition sample_run : list Op :=
  [OpGetCurrentOrNext 1 1;
   OpUpdateUsage 2 "B"
     {| upd_usedCount := 7; upd_limitCount := 50; upd_realEmail := None |};
   OpRemoveAccount (plain_account "A" None None);
   OpSaveToDisk no_faults;
   OpAddAccount (plain_account "D" None None)].

(** ** Further parts of the program *)

(** The notification fields of [AccountManager] ([lastToastAccountIndex],
    [lastToastTime]) with their two methods; the methods read and write
    nothing else of the pool. *)
Record ToastState := {
  lastToastAccountIndex : Z;
  lastToastTime : Z
}.

(** The field initialisers: [-1] and [0]. *)
Definition toast_initial : ToastState :=
  {| lastToastAccountIndex := -1; lastToastTime := 0 |}.

(** [shouldShowAccountToast(accountIndex, debounceMs)] *)
Definition shouldShowAccountToast (now : Z) (accountIndex debounceMs : Z)
    (t : ToastState) : bool :=
  if (accountIndex =? lastToastAccountIndex t)
     && (now - lastToastTime t <? debounceMs)
  then false
  else true.

(** The default of the parameter [debounceMs]. *)
Definition DEFAULT_DEBOUNCE_MS : Z := 30000.

(** [markToastShown(accountIndex)] *)
Definition markToastShown (now : Z) (accountIndex : Z) (t : ToastState)
  : ToastState :=
  {| lastToastAccountIndex := accountIndex; lastToastTime := now |}.

(** [getStoragePath()] and [getUsagePath()] of [storage.ts]: [xdgConfig]
    is the directory the [xdg-basedir] package reports, if any, and
    [home] the text the template literal makes of [process.env.HOME]. *)
Definition configDir (xdgConfig : option string) (home : string) : string :=
  Js.or_str xdgConfig (home +:+ "/.config").

Definition getStoragePath (xdgConfig : option string) (home : string)
  : string :=
  configDir xdgConfig home +:+ "/opencode/kiro-accounts.json".

Definition getUsagePath (xdgConfig : option string) (home : string)
  : string :=
  configDir xdgConfig home +:+ "/opencode/kiro-usage.json".










(** The ids of the pool, in array order, and the pool holding no id
    twice. *)
Definition ids (m : AccountManager) : list string :=
  Acct.id <$> accounts m.

Definition unique_ids (m : AccountManager) : Prop := NoDup (ids m).

(** The lowest-usage order on accounts: fewer requests first, and among
    equals the older [lastUsed] first. *)
Definition usage_le (a b : ManagedAccount) : Prop :=
  Js.or_zero (Acct.usedCount a) < Js.or_zero (Acct.usedCount b)
  ∨ (Js.or_zero (Acct.usedCount a) = Js.or_zero (Acct.usedCount b)
     ∧ Js.or_zero (Acct.lastUsed a) <= Js.or_zero (Acct.lastUsed b)).

(** What [filterHealthyAccounts] keeps. *)
Definition quota_eligible (a : ManagedAccount) : Prop :=
  Acct.isHealthy a = true ∧ checkQuotaStatus a ≠ exhausted.



(** * Properties *)

(** ** Availability *)

Lemma set_and_reached_true x now :
  Js.set_and_reached x now = true ↔ ∃ r, x = Some r ∧ r ≠ 0 ∧ r <= now.
Proof.
  destruct x as [r|]; simpl.
  - rewrite andb_true_iff, negb_true_iff, Z.eqb_neq, Z.leb_le.
    split.
    + intros [? ?]. exists r. auto.
    + intros (r' & [= <-] & ? & ?). auto.
  - split; [discriminate|]. intros (r & [=] & _).
Qed.

Lemma set_and_pending_true x now :
  Js.set_and_pending x now = true ↔ ∃ t, x = Some t ∧ t ≠ 0 ∧ now < t.
Proof.
  destruct x as [t|]; simpl.
  - rewrite andb_true_iff, negb_true_iff, Z.eqb_neq, Z.ltb_lt.
    split.
    + intros [? ?]. exists t. auto.
    + intros (t' & [= <-] & ? & ?). auto.
  - split; [discriminate|]. intros (t & [=] & _).
Qed.

(** The result of the filter callback is the result of the predicate. *)
Lemma filter_step_result now a :
  (filter_step now a).1 = isAccountAvailable now a.
Proof.
  unfold filter_step, isAccountAvailable.
  destruct (Acct.isHealthy a); simpl.
  - destruct (Js.set_and_pending _ _); reflexivity.
  - destruct (Js.set_and_reached _ _); reflexivity.
Qed.

(** What the predicate computes: a healthy account is available unless a
    rate-limit reset time is pending; an unhealthy one is available as
    soon as its recovery time is reached, whatever its rate limit. *)
Lemma isAccountAvailable_true now a :
  isAccountAvailable now a = true ↔
    (Acct.isHealthy a = true
     ∧ Js.set_and_pending (Acct.rateLimitResetTime a) now = false)
    ∨ (Acct.isHealthy a = false
       ∧ Js.set_and_reached (Acct.recoveryTime a) now = true).
Proof.
  unfold isAccountAvailable.
  destruct (Acct.isHealthy a); simpl.
  - destruct (Js.set_and_pending _ _); split; intros H;
      try discriminate; try (left; auto; fail); try reflexivity.
    destruct H as [[_ H]|[H _]]; discriminate.
  - destruct (Js.set_and_reached _ _); split; intros H;
      try discriminate; try (right; auto; fail); try reflexivity.
    destruct H as [[H _]|[_ H]]; discriminate.
Qed.

(** On healthy accounts the predicate is the one of the specification,
    for a clock that is not negative. *)
Lemma isAccountAvailable_spec_healthy now a :
  0 <= now → Acct.isHealthy a = true →
  isAccountAvailable now a = isAvailable_spec now a.
Proof.
  intros Hnow Hh. unfold isAccountAvailable, isAvailable_spec.
  rewrite Hh. simpl.
  destruct (Acct.rateLimitResetTime a) as [t|]; simpl; [|reflexivity].
  destruct (Z.eqb_spec t 0) as [->|Hne]; simpl.
  - symmetry. apply Z.leb_le in Hnow. rewrite Hnow. reflexivity.
  - rewrite Z.leb_antisym. destruct (now <? t); reflexivity.
Qed.

(** C1, evaluated on the code: at [now = 500] the account
    [recovered_but_limited] (unhealthy, recovery time 100, rate-limit
    reset time 1000) is reported available by [isAccountAvailable] and
    kept by the filter of [getCurrentOrNext], while the predicate of the
    specification makes it unavailable; once the filter has recovered
    it, the same predicate rejects the very same account; under each
    strategy [getCurrentOrNext] returns it from a pool that holds
    nothing else; and that pool is what [markRateLimited] (at time 0,
    for 1000 ms) followed by [markUnhealthy] (recovery time 100) make of
    a pool with one plain account. *)
Theorem recovered_account_skips_rate_limit :
  isAccountAvailable 500 recovered_but_limited = true
  ∧ (filter_step 500 recovered_but_limited).1 = true
  ∧ isAvailable_spec 500 recovered_but_limited = false
  ∧ isAccountAvailable 500 (filter_step 500 recovered_but_limited).2 = false
  ∧ (∀ s, (getCurrentOrNext 500 500 (limited_pool s)).1 = Some 0%nat)
  ∧ (∀ s,
       let acc := plain_account "acc-1" None None in
       markUnhealthy acc "quota" (Some 100)
         (markRateLimited 0 acc 1000 (mkManager [acc] ∅ 0%nat s))
       = limited_pool s).
Proof.
  repeat split; try reflexivity. intros []; reflexivity.
Qed.

(** The recovery branch changes the three recovery fields and nothing
    else. *)
Lemma recover_fields a :
  Acct.isHealthy (recover a) = true
  ∧ Acct.unhealthyReason (recover a) = None
  ∧ Acct.recoveryTime (recover a) = None
  ∧ same_but_recovery a (recover a).
Proof. unfold same_but_recovery. repeat split; reflexivity. Qed.

Lemma filter_step_recovers now a :
  Acct.isHealthy a = false →
  Js.set_and_reached (Acct.recoveryTime a) now = true →
  filter_step now a = (true, recover a).
Proof.
  intros Hh Hr. unfold filter_step. rewrite Hh, Hr. reflexivity.
Qed.

(** C7, as stated, fails on the standalone predicate: at [now = 500]
    [isAccountAvailable] answers [true] for the unhealthy account
    [recovering] (recovery time 100) and leaves it unhealthy, with its
    reason and its recovery time still in place. *)
Lemma isAccountAvailable_does_not_recover :
  let r := isAccountAvailable_call 500 recovering in
  r.1 = true
  ∧ Acct.isHealthy r.2 = false
  ∧ Acct.unhealthyReason r.2 = Some "quota"
  ∧ Acct.recoveryTime r.2 = Some 100.
Proof. repeat split; reflexivity. Qed.

(** C7, amended: for an unhealthy account whose recovery time is set
    (to a non-zero timestamp) and reached, the filter callback of
    [getCurrentOrNext] keeps the account, makes it healthy, clears
    [unhealthyReason] and [recoveryTime] and leaves every other field as
    it was, and the pool after the filter holds the recovered account at
    the same position; the standalone [isAccountAvailable] answers
    [true] and changes nothing. *)
Theorem lazy_recovery_only_in_filter (now r : Z) (a : ManagedAccount) :
  Acct.isHealthy a = false →
  Acct.recoveryTime a = Some r → r ≠ 0 → r <= now →
  (filter_step now a).1 = true
  ∧ Acct.isHealthy (filter_step now a).2 = true
  ∧ Acct.unhealthyReason (filter_step now a).2 = None
  ∧ Acct.recoveryTime (filter_step now a).2 = None
  ∧ same_but_recovery a (filter_step now a).2
  ∧ (∀ accs i, accs !! i = Some a →
       after_filter now accs !! i = Some (filter_step now a).2)
  ∧ isAccountAvailable_call now a = (true, a).
Proof.
  intros Hh Hr Hne Hle.
  assert (Hreach : Js.set_and_reached (Acct.recoveryTime a) now = true).
  { apply set_and_reached_true. eauto. }
  rewrite (filter_step_recovers now a Hh Hreach). simpl.
  destruct (recover_fields a) as (H1 & H2 & H3 & H4).
  repeat split; try assumption.
  - intros accs i Hi. unfold after_filter.
    rewrite list_lookup_fmap, Hi. simpl.
    rewrite (filter_step_recovers now a Hh Hreach). reflexivity.
  - unfold isAccountAvailable_call, isAccountAvailable.
    rewrite Hh, Hreach. reflexivity.
Qed.

(** The account [recovering] at [now = 500] meets the hypotheses. *)
Lemma lazy_recovery_only_in_filter_witness :
  (filter_step 500 recovering).1 = true
  ∧ Acct.isHealthy (filter_step 500 recovering).2 = true
  ∧ isAccountAvailable_call 500 recovering = (true, recovering).
Proof.
  pose proof (lazy_recovery_only_in_filter 500 100 recovering
                eq_refl eq_refl ltac:(lia) ltac:(lia)) as H.
  destruct H as (H1 & H2 & _ & _ & _ & _ & H7).
  repeat split; assumption.
Defined.

(** ** Quota classification *)

Lemma counters_falsy_false a :
  counters_falsy a = false ↔
    ∃ u l, Acct.usedCount a = Some u ∧ Acct.limitCount a = Some l
           ∧ u ≠ 0 ∧ l ≠ 0.
Proof.
  unfold counters_falsy, Js.truthy_num.
  destruct (Acct.usedCount a) as [u|], (Acct.limitCount a) as [l|]; simpl.
  - rewrite orb_false_iff, !negb_false_iff, !negb_true_iff, !Z.eqb_neq.
    split.
    + intros [? ?]. exists u, l. auto.
    + intros (u' & l' & [= <-] & [= <-] & ? & ?). auto.
  - rewrite orb_true_r. split; [discriminate|].
    intros (u' & l' & _ & [=] & _).
  - split; [discriminate|]. intros (u' & l' & [=] & _).
  - split; [discriminate|]. intros (u' & l' & [=] & _).
Qed.

(** C3, as stated, fails: the account [used_without_limit] has
    [usedCount = 5] and [limitCount = 0], so its counters are not both
    absent or zero and [usedCount >= limitCount]; the claim makes it
    exhausted, the code classifies it healthy. *)
Lemma zero_limit_is_healthy_not_exhausted :
  Acct.usedCount used_without_limit = Some 5
  ∧ Acct.limitCount used_without_limit = Some 0
  ∧ Js.or_zero (Acct.limitCount used_without_limit)
    <= Js.or_zero (Acct.usedCount used_without_limit)
  ∧ checkQuotaStatus used_without_limit = healthy
  ∧ checkQuotaStatus used_without_limit ≠ exhausted.
Proof. repeat split; try reflexivity; try discriminate. Qed.

(** C3, amended: [checkQuotaStatus] returns [healthy] when [usedCount]
    or [limitCount] (either one) is absent or zero; otherwise it returns
    [exhausted] exactly when [usedCount >= limitCount]; otherwise, for a
    positive limit, with
    [percentage = Math.round((usedCount / limitCount) * 100)] computed
    in binary64 as the program computes it, it returns [warning] exactly
    when [percentage >= 80] and [healthy] otherwise.  80 of 100 is
    [warning] and 100 of 100 is [exhausted]; 159 of 200 rounds up to 80
    and is [warning], 79 of 100 is [healthy]; 23 of 40 has the
    percentage 57, the binary64 product falling just below 57.5. *)
Theorem checkQuotaStatus_classification (a : ManagedAccount) :
  let u := Js.or_zero (Acct.usedCount a) in
  let l := Js.or_zero (Acct.limitCount a) in
  let percentage :=
    Number.Math_round
      (PrimFloat.mul (PrimFloat.div (Number.of_Z u) (Number.of_Z l))
         (Number.of_Z 100)) in
  (counters_falsy a = true → checkQuotaStatus a = healthy)
  ∧ (counters_falsy a = false →
     (checkQuotaStatus a = exhausted ↔ l <= u))
  ∧ (counters_falsy a = false → u < l → 0 < l →
     (checkQuotaStatus a = warning ↔ Num.geb percentage (Num.Fin 80) = true)
     ∧ (checkQuotaStatus a = healthy
        ↔ Num.geb percentage (Num.Fin 80) = false))
  ∧ checkQuotaStatus (plain_account "a" (Some 80) (Some 100)) = warning
  ∧ checkQuotaStatus (plain_account "a" (Some 100) (Some 100)) = exhausted
  ∧ checkQuotaStatus (plain_account "a" (Some 159) (Some 200)) = warning
  ∧ checkQuotaStatus (plain_account "a" (Some 79) (Some 100)) = healthy
  ∧ calculateUsagePercentage {| uc_usedCount := 23; uc_limitCount := 40 |}
    = Num.Fin 57.
Proof.
  intros u l percentage. unfold checkQuotaStatus.
  split; [|split; [|split; [|split; [|split; [|split; [|split]]]]]].
  - intros ->. reflexivity.
  - intros ->. unfold isQuotaExhausted, counts_of. simpl. fold u l.
    destruct (Z.leb_spec l u) as [Hle|Hlt].
    + split; auto.
    + split; [|lia]. destruct (Num.geb _ _); discriminate.
  - intros -> Hlt Hl. unfold isQuotaExhausted, counts_of. simpl. fold u l.
    destruct (Z.leb_spec l u) as [Hle|_]; [lia|].
    unfold calculateUsagePercentage. simpl. fold u l.
    destruct (Z.eqb_spec l 0) as [?|_]; [lia|].
    destruct (Z.leb_spec l 0) as [?|_]; [lia|]. simpl.
    fold percentage. unfold WARNING_THRESHOLD_PERCENT.
    destruct (Num.geb percentage (Num.Fin 80)).
    + split; split; intros; try reflexivity; discriminate.
    + split; split; intros; try reflexivity; discriminate.
  - vm_compute. reflexivity.
  - vm_compute. reflexivity.
  - vm_compute. reflexivity.
  - vm_compute. reflexivity.
  - vm_compute. reflexivity.
Qed.

(** ** [Array_sort] *)

Section ArraySortFacts.

Context {A : Type} (cmp : A → A → Num.t).

Lemma sort_insert_Permutation x (l : list A) :
  sort_insert cmp x l ≡ₚ x :: l.
Proof.
  induction l as [|y l IH]; simpl; [reflexivity|].
  destruct (Num.positive (cmp x y)); [|reflexivity].
  rewrite IH. apply Permutation_swap.
Qed.

Lemma Array_sort_Permutation (l : list A) : Array_sort cmp l ≡ₚ l.
Proof.
  induction l as [|x l IH]; simpl; [reflexivity|].
  rewrite sort_insert_Permutation, IH. reflexivity.
Qed.

(** A relation [R] that the comparator decides: [x] may stand before [y]
    when the comparator's result is not positive, and [y] before [x]
    when it is. *)
Context (R : A → A → Prop).
Hypothesis R_trans : ∀ x y z, R x y → R y z → R x z.
Hypothesis cmp_keep : ∀ x y, Num.positive (cmp x y) = false → R x y.
Hypothesis cmp_swap : ∀ x y, Num.positive (cmp x y) = true → R y x.

Lemma sort_insert_sorted x (l : list A) :
  StronglySorted R l → StronglySorted R (sort_insert cmp x l).
Proof.
  induction l as [|y l IH]; simpl; intros Hs.
  - repeat constructor.
  - apply StronglySorted_cons in Hs as [Hy Hl].
    destruct (Num.positive (cmp x y)) eqn:Hc.
    + apply StronglySorted_cons. split; [|auto].
      rewrite sort_insert_Permutation. constructor; auto.
    + apply StronglySorted_cons. split.
      * constructor; [auto|].
        eapply Forall_impl; [exact Hy|]. intros z Hz. eauto.
      * apply StronglySorted_cons. auto.
Qed.

Lemma Array_sort_sorted (l : list A) : StronglySorted R (Array_sort cmp l).
Proof.
  induction l as [|x l IH]; simpl; [constructor|].
  apply sort_insert_sorted, IH.
Qed.

End ArraySortFacts.

Lemma StronglySorted_lookup_lt {A} (R : A → A → Prop) (l : list A) i j x y :
  StronglySorted R l → l !! i = Some x → l !! j = Some y → (i < j)%nat →
  R x y.
Proof.
  intros Hs Hi Hj Hlt.
  rewrite <- (take_drop j l) in Hs.
  eapply StronglySorted_app_1_elem_of; [exact Hs| |].
  - apply list_elem_of_lookup. exists i. rewrite lookup_take_lt; auto.
  - apply list_elem_of_lookup. exists 0%nat. rewrite lookup_drop.
    rewrite Nat.add_0_r. exact Hj.
Qed.

(** ** Quota ranking *)

Lemma getRemainingQuota_cases a :
  getRemainingQuota a = Num.PosInf
  ∨ ∃ z, getRemainingQuota a = Num.Fin z.
Proof.
  unfold getRemainingQuota. destruct (counters_falsy a); eauto.
Qed.

Lemma remaining_ge_trans a b c :
  remaining_ge a b → remaining_ge b c → remaining_ge a c.
Proof.
  unfold remaining_ge.
  destruct (getRemainingQuota_cases a) as [->|[x ->]],
           (getRemainingQuota_cases b) as [->|[y ->]],
           (getRemainingQuota_cases c) as [->|[z ->]]; simpl;
    try discriminate; try reflexivity.
  rewrite !Z.leb_le. lia.
Qed.

Lemma quota_cmp_keep a b :
  Num.positive (quota_cmp a b) = false → remaining_ge a b.
Proof.
  unfold remaining_ge, quota_cmp.
  destruct (getRemainingQuota_cases a) as [->|[x ->]],
           (getRemainingQuota_cases b) as [->|[y ->]]; simpl;
    try discriminate; try reflexivity.
  rewrite Z.ltb_ge, Z.leb_le. lia.
Qed.

Lemma quota_cmp_swap a b :
  Num.positive (quota_cmp a b) = true → remaining_ge b a.
Proof.
  unfold remaining_ge, quota_cmp.
  destruct (getRemainingQuota_cases a) as [->|[x ->]],
           (getRemainingQuota_cases b) as [->|[y ->]]; simpl;
    try discriminate; try reflexivity.
  rewrite Z.ltb_lt, Z.leb_le. lia.
Qed.

(** C8, as stated, fails: [fresh_small] has both counters present
    ([usedCount = 0], [limitCount = 100], so 100 requests left) and
    [mostly_free] has 950 left, yet the code gives [fresh_small] an
    infinite remaining quota and ranks it first. *)
Lemma zero_used_ranks_as_unknown :
  Acct.usedCount fresh_small = Some 0
  ∧ Acct.limitCount fresh_small = Some 100
  ∧ getRemainingQuota mostly_free = Num.Fin 950
  ∧ getRemainingQuota fresh_small = Num.PosInf
  ∧ sortAccountsByQuota [mostly_free; fresh_small]
    = [fresh_small; mostly_free].
Proof. repeat split; reflexivity. Qed.

(** C8, amended: [sortAccountsByQuota] rearranges the accounts in
    descending order of their remaining quota, where an account whose
    [usedCount] or [limitCount] is absent or zero has unknown quota and
    an infinite remaining value, and any other account has
    [remaining = max(0, limitCount - usedCount)]; every account with
    unknown quota stands ahead of every account with known quota. *)
Theorem sortAccountsByQuota_ranking (accs : list ManagedAccount) :
  let sorted := sortAccountsByQuota accs in
  sorted ≡ₚ accs
  ∧ StronglySorted remaining_ge sorted
  ∧ (∀ a, counters_falsy a = true → getRemainingQuota a = Num.PosInf)
  ∧ (∀ a, counters_falsy a = false →
       getRemainingQuota a
       = Num.Fin (Z.max 0 (Js.or_zero (Acct.limitCount a)
                           - Js.or_zero (Acct.usedCount a))))
  ∧ (∀ i j known unknown,
       sorted !! i = Some known → sorted !! j = Some unknown →
       counters_falsy known = false → counters_falsy unknown = true →
       (j < i)%nat).
Proof.
  intros sorted.
  assert (Hs : StronglySorted remaining_ge sorted).
  { apply Array_sort_sorted.
    - apply remaining_ge_trans.
    - apply quota_cmp_keep.
    - apply quota_cmp_swap. }
  split; [apply Array_sort_Permutation|].
  split; [exact Hs|].
  split; [intros a Ha; unfold getRemainingQuota; rewrite Ha; reflexivity|].
  split; [intros a Ha; unfold getRemainingQuota; rewrite Ha; reflexivity|].
  intros i j k u Hi Hj Hk Hu.
  destruct (Nat.lt_trichotomy i j) as [Hlt|[->|Hgt]]; [| |exact Hgt].
  - pose proof (StronglySorted_lookup_lt _ _ _ _ _ _ Hs Hi Hj Hlt) as Hge.
    unfold remaining_ge, getRemainingQuota in Hge.
    rewrite Hk, Hu in Hge. discriminate.
  - rewrite Hi in Hj. injection Hj as ->. congruence.
Qed.

(** ** Round-robin selection *)

Lemma available_from_positions now i accs p :
  p ∈ (available_from now i accs).*1 → (i <= p)%nat.
Proof.
  revert i. induction accs as [|a accs IH]; intros i; simpl.
  - intros H. inversion H.
  - destruct (filter_step now a).1; simpl.
    + intros [->|H]%elem_of_cons; [lia|]. apply IH in H. lia.
    + intros H. apply IH in H. lia.
Qed.

(** The filter keeps each position at most once. *)
Lemma availableAccounts_NoDup now accs :
  NoDup (availableAccounts now accs).*1.
Proof.
  unfold availableAccounts. generalize 0%nat as i.
  induction accs as [|a accs IH]; intros i; simpl; [constructor|].
  destruct (filter_step now a).1; simpl; [|apply IH].
  constructor; [|apply IH].
  intros H%available_from_positions. lia.
Qed.

(** One call under round-robin: the call returns the entry of the
    filtered list at [cursor mod N] and leaves [cursor + 1 mod N]. *)
Lemma round_robin_call now now' m av :
  strategy m = round_robin → av ≠ [] →
  (availableAccounts now (accounts m)).*1 = av →
  let r := getCurrentOrNext now now' m in
  r.1 = av !! (cursor m mod length av)%nat
  ∧ is_Some r.1
  ∧ cursor r.2 = ((cursor m + 1) mod length av)%nat
  ∧ strategy r.2 = round_robin.
Proof.
  intros Hs Hne Hav. unfold getCurrentOrNext. rewrite Hs.
  assert (Hlen : length (availableAccounts now (accounts m)) = length av).
  { rewrite <- Hav. rewrite length_fmap. reflexivity. }
  destruct (availableAccounts now (accounts m)) as [|first rest] eqn:Ha.
  { simpl in Hav. congruence. }
  rewrite <- Ha in *. clear first rest Ha.
  rewrite Hlen.
  assert (Hlt : (cursor m mod length av < length av)%nat).
  { apply Nat.mod_upper_bound. destruct av; [congruence|simpl; lia]. }
  assert (Hsome : is_Some (av !! (cursor m mod length av)%nat)).
  { apply lookup_lt_is_Some. exact Hlt. }
  destruct Hsome as [p Hp].
  assert (Hp' : fst <$> availableAccounts now (accounts m)
                           !! (cursor m mod length av)%nat = Some p).
  { rewrite <- list_lookup_fmap, Hav. exact Hp. }
  destruct (availableAccounts now (accounts m) !! (cursor m mod length av)%nat)
    as [account|] eqn:Hacc; simpl in Hp'; [|discriminate].
  injection Hp' as <-. simpl.
  rewrite Hp. repeat split; eauto.
Qed.

Lemma round_robin_calls times : ∀ m av,
  strategy m = round_robin → av ≠ [] →
  available_stays av times m →
  (select_many times m).1
  = (fun k => av !! ((cursor m + k) mod length av)%nat)
      <$> seq 0 (length times)
  ∧ cursor (select_many times m).2
    = (if times is [] then cursor m
       else ((cursor m + length times) mod length av)%nat)
  ∧ strategy (select_many times m).2 = round_robin.
Proof.
  induction times as [|t times IH]; intros m av Hs Hne Hstay.
  - simpl. auto.
  - destruct Hstay as [Hav Hrest].
    destruct (round_robin_call t.1 t.2 m av Hs Hne Hav) as (H1 & _ & H3 & H4).
    destruct (IH _ av H4 Hne Hrest) as (IH1 & IH2 & IH3).
    cbn [select_many fst snd length seq fmap list_fmap].
    split; [|split].
    + f_equal.
      * rewrite H1, Nat.add_0_r. reflexivity.
      * rewrite IH1, H3. rewrite <- fmap_S_seq, <- list_fmap_compose.
        apply list_fmap_ext. intros i k _. simpl. f_equal.
        rewrite Nat.Div0.add_mod_idemp_l. f_equal. lia.
    + rewrite IH2, H3. destruct times as [|t' times'].
      * simpl. f_equal. 
      * rewrite Nat.Div0.add_mod_idemp_l. f_equal. simpl. lia.
    + exact IH3.
Qed.

Lemma rotate_lookups {A} (c : nat) (l : list A) :
  (fun k => l !! ((c + k) mod length l)%nat) <$> seq 0 (length l)
  = Some <$> rotate c l.
Proof.
  apply list_eq. intros i.
  rewrite !list_lookup_fmap.
  destruct (decide (i < length l)%nat) as [Hlt|Hge].
  - rewrite lookup_seq_lt by exact Hlt. simpl.
    rewrite lookup_rotate_r by exact Hlt.
    unfold rotate_nat_add.
    rewrite <- Nat2Z.inj_add, <- Nat2Z.inj_mod, Nat2Z.id.
    destruct (lookup_lt_is_Some_2 l ((c + i) mod length l)%nat) as [x Hx].
    { apply Nat.mod_upper_bound. lia. }
    rewrite Hx. reflexivity.
  - rewrite lookup_seq_ge by lia.
    rewrite lookup_ge_None_2; [reflexivity|].
    rewrite length_rotate. lia.
Qed.

Lemma rotate_Permutation {A} (c : nat) (l : list A) : rotate c l ≡ₚ l.
Proof.
  unfold rotate. rewrite Permutation_app_comm. rewrite take_drop. reflexivity.
Qed.

(** C5: under round-robin, whatever the cursor, when the filter keeps
    the same [N >= 1] positions [av] at each of [N] consecutive calls,
    the calls return each of the [N] available accounts exactly once
    (the positions returned are a rearrangement of [av] without
    repetition, namely [av] rotated by the cursor); each call returns
    the entry of the filtered list at [cursor mod N] and then sets the
    cursor to [(cursor + 1) mod N]. *)
Theorem round_robin_visits_each_once
    (m : AccountManager) (times : list (Z * Z)) (av : list nat) :
  strategy m = round_robin →
  av ≠ [] →
  length times = length av →
  available_stays av times m →
  let N := length av in
  (select_many times m).1
  = (fun k => av !! ((cursor m + k) mod N)%nat) <$> seq 0 N
  ∧ (∃ visited,
       (select_many times m).1 = Some <$> visited
       ∧ visited ≡ₚ av ∧ NoDup visited)
  ∧ (∀ now now' m',
       strategy m' = round_robin →
       (availableAccounts now (accounts m')).*1 = av →
       (getCurrentOrNext now now' m').1 = av !! (cursor m' mod N)%nat
       ∧ cursor (getCurrentOrNext now now' m').2 = ((cursor m' + 1) mod N)%nat).
Proof.
  intros Hs Hne Hlen Hstay N.
  destruct (round_robin_calls times m av Hs Hne Hstay) as (H1 & _ & _).
  rewrite Hlen in H1. fold N in H1.
  split; [exact H1|]. split.
  - exists (rotate (cursor m) av). split; [|split].
    + rewrite H1. apply rotate_lookups.
    + apply rotate_Permutation.
    + rewrite rotate_Permutation.
      destruct times as [|t times]; [destruct av; [congruence|discriminate]|].
      destruct Hstay as [<- _]. apply availableAccounts_NoDup.
  - intros now now' m' Hs' Hav'.
    destruct (round_robin_call now now' m' av Hs' Hne Hav') as (? & _ & ? & _).
    auto.
Qed.

(** In [rr_pool] the filter keeps positions 0 and 2 at both calls of
    [rr_times]; with the cursor at 5 the two calls visit both. *)
Lemma round_robin_visits_each_once_witness :
  ∃ visited,
    (select_many rr_times rr_pool).1 = Some <$> visited
    ∧ visited ≡ₚ [0; 2]%nat ∧ NoDup visited.
Proof.
  pose proof (round_robin_visits_each_once rr_pool rr_times [0; 2]%nat) as H.
  destruct H as (_ & H & _).
  - reflexivity.
  - discriminate.
  - reflexivity.
  - vm_compute. auto.
  - exact H.
Defined.

(** ** Lowest-usage selection *)

(** C6: from A (5 requests), B (1) and C (3), all never used, three
    calls under the lowest-usage strategy return B (whose count becomes
    2 and whose [lastUsed] becomes the first clock reading), then B
    again (count 3, [lastUsed] the second reading), then C: B and C tie
    at 3 and C, never used, is older than B.  The second clock reading
    is a time after the epoch. *)
Theorem lowest_usage_scenario (t1 t1' t2 t2' t3 t3' : Z) :
  0 < t2 →
  let r1 := getCurrentOrNext t1 t1' lu_pool in
  let r2 := getCurrentOrNext t2 t2' r1.2 in
  let r3 := getCurrentOrNext t3 t3' r2.2 in
  (Acct.id <$> returned r1 = Some "B"
   ∧ Acct.usedCount <$> returned r1 = Some (Some 2)
   ∧ Acct.lastUsed <$> returned r1 = Some (Some t1))
  ∧ (Acct.id <$> returned r2 = Some "B"
     ∧ Acct.usedCount <$> returned r2 = Some (Some 3)
     ∧ Acct.lastUsed <$> returned r2 = Some (Some t2))
  ∧ (Acct.id <$> returned r3 = Some "C"
     ∧ Acct.usedCount <$> returned r3 = Some (Some 4)
     ∧ Acct.lastUsed <$> returned r3 = Some (Some t3)).
Proof.
  intros Ht2.
  destruct t2 as [|p|p]; try lia.
  vm_compute. repeat split; reflexivity.
Qed.

(** The scenario at the clock readings 1000, 2000 and 3000. *)
Lemma lowest_usage_scenario_witness :
  Acct.id <$> returned
    (getCurrentOrNext 3000 3000
       (getCurrentOrNext 2000 2000
          (getCurrentOrNext 1000 1000 lu_pool).2).2)
  = Some "C".
Proof.
  pose proof (lowest_usage_scenario 1000 1000 2000 2000 3000 3000
                ltac:(lia)) as H.
  destruct H as (_ & _ & H & _). exact H.
Defined.

(** ** Saving and loading *)

Ltac io_unfold :=
  unfold saveToDisk, saveAccounts, saveUsage, withFileLock, ensureFileExists,
    access, write_default, replace_accounts, replace_usage, loadFromDisk,
    loadAccounts, loadUsage, read_accounts, read_usage, try_catch, call,
    log, must_exist, parse_accounts, parse_usage, put_accounts, put_usage,
    record, no_faults, mbind, mret, IO_bind, IO_ret, io_bind, io_ret;
  simpl.

(** When no call fails, [saveToDisk] returns normally and leaves the two
    documents of the pool on disk, whatever was there before. *)
Lemma saveToDisk_ok (m : AccountManager) (w : World) :
  ∃ w1,
    saveToDisk m no_faults w = (w1, inr ())
    ∧ accountsFile (disk w1)
      = Holds {| as_version := 1;
                 as_accounts := to_metadata <$> accounts m;
                 as_activeIndex := Z.of_nat (cursor m) |}
    ∧ usageFile (disk w1) = Holds {| us_version := 1; us_usage := usage m |}.
Proof.
  destruct w as [[af uf] tr].
  destruct af, uf; io_unfold; eexists; (split; [reflexivity|]);
    simpl; split; reflexivity.
Qed.

(** When no call fails and both documents are on disk, [loadFromDisk]
    builds the pool from them. *)
Lemma loadFromDisk_ok s (w : World) st us :
  accountsFile (disk w) = Holds st →
  usageFile (disk w) = Holds us →
  ∃ w2,
    loadFromDisk s no_faults w
    = (w2, inr (constructor (of_metadata <$> as_accounts st) (us_usage us)
                  (default sticky s))).
Proof.
  destruct w as [[af uf] tr]. simpl. intros -> ->.
  io_unfold. eexists. reflexivity.
Qed.

Lemma of_to_metadata a :
  region_set a → same_persisted a (of_metadata (to_metadata a)).
Proof.
  unfold region_set, same_persisted. intros Hr.
  repeat split. simpl.
  destruct (Acct.region a) as [r|]; simpl in *; [|discriminate].
  destruct (String.eqb r ""); [discriminate|reflexivity].
Qed.

Lemma sync_usage_persisted u a a' :
  same_persisted a a' → same_persisted a (sync_usage u a').
Proof.
  unfold sync_usage. destruct (u !! Acct.id a'); auto.
Qed.

Lemma sync_usage_from u a :
  Acct.usedCount a = None → Acct.limitCount a = None →
  Acct.realEmail a = None →
  usage_from u (sync_usage u a).
Proof.
  intros H1 H2 H3. unfold usage_from, sync_usage.
  destruct (u !! Acct.id a) as [meta|] eqn:Hm; simpl.
  - rewrite Hm. simpl. auto.
  - rewrite Hm. simpl. auto.
Qed.

(** C2: for every pool in which every account has a region set,
    [saveToDisk] followed by [loadFromDisk] (with no file-system or lock
    call failing, from any state of the disk) gives a pool with the same
    accounts in the same order, each with identical [id], [email],
    [authMethod], [region], [profileArn], [clientId], [clientSecret],
    [refreshToken], [accessToken], [expiresAt], [rateLimitResetTime],
    [isHealthy], [unhealthyReason] and [recoveryTime], and with
    [usedCount], [limitCount] and [realEmail] equal to the values the
    usage map held under the account's id when the pool was saved; the
    usage map itself is the saved one. *)
Theorem save_load_roundtrip (m : AccountManager) (w : World)
    (s : option AccountSelectionStrategy) :
  Forall region_set (accounts m) →
  ∃ w1 w2 m',
    saveToDisk m no_faults w = (w1, inr ())
    ∧ loadFromDisk s no_faults w1 = (w2, inr m')
    ∧ Forall2 (fun a a' => same_persisted a a' ∧ usage_from (usage m) a')
        (accounts m) (accounts m')
    ∧ usage m' = usage m.
Proof.
  intros Hreg.
  destruct (saveToDisk_ok m w) as (w1 & Hsave & Hacc & Huse).
  destruct (loadFromDisk_ok s w1 _ _ Hacc Huse) as (w2 & Hload).
  exists w1, w2. eexists. split; [exact Hsave|]. split; [exact Hload|].
  simpl. split; [|reflexivity].
  rewrite <- !list_fmap_compose.
  apply Forall2_fmap_r, Forall_Forall2_diag.
  eapply Forall_impl; [exact Hreg|]. intros a Ha. simpl. split.
  - apply sync_usage_persisted, of_to_metadata, Ha.
  - apply sync_usage_from; reflexivity.
Qed.

(** [lu_pool], whose accounts all have a region, saved to an empty disk
    and loaded again. *)
Lemma save_load_roundtrip_witness :
  ∃ w1 w2 m',
    saveToDisk lu_pool no_faults empty_world = (w1, inr ())
    ∧ loadFromDisk None no_faults w1 = (w2, inr m')
    ∧ Forall2
        (fun a a' => same_persisted a a' ∧ usage_from (usage lu_pool) a')
        (accounts lu_pool) (accounts m')
    ∧ usage m' = usage lu_pool.
Proof.
  apply (save_load_roundtrip lu_pool empty_world None).
  repeat constructor.
Defined.

(** ** The locking wrapper *)

(** [ensureFileExists] starts by looking at the file. *)
Lemma ensureFileExists_trace k faults w :
  ∃ rest,
    trace (ensureFileExists k faults w).1 = trace w ++ fs_access k :: rest
    ∧ lockfile_lock k ∉ rest.
Proof.
  destruct w as [[af uf] tr].
  unfold ensureFileExists, access, write_default, try_catch, call, must_exist,
    put_accounts, put_usage, record, mbind, IO_bind, io_bind.
  simpl.
  destruct (faults (fs_access k)), (faults (fs_mkdir k)),
    (faults (fs_writeFile k)), k, af, uf; simpl;
    rewrite <- ?app_assoc; simpl; eexists; (split; [reflexivity|]);
    rewrite ?elem_of_cons, elem_of_nil; intuition discriminate.
Qed.

(** C9, as stated, fails on the order of the steps: with neither file on
    disk and no failing call, [withFileLock] looks for the file, creates
    its directory and writes the default document before it takes the
    lock, so the lock is not taken before the file is ensured; and when
    taking the lock fails, the default document has been written all the
    same. *)
Lemma file_is_ensured_before_the_lock :
  trace (withFileLock accounts_kind return_seven no_faults empty_world).1
  = [fs_access accounts_kind; fs_mkdir accounts_kind;
     fs_writeFile accounts_kind; lockfile_lock accounts_kind;
     lock_release accounts_kind]
  ∧ ¬ precedes (lockfile_lock accounts_kind) (fs_access accounts_kind)
        (trace (withFileLock accounts_kind return_seven no_faults
                  empty_world).1)
  ∧ (withFileLock accounts_kind return_seven lock_fails empty_world).2
    = inl (CallFailed (lockfile_lock accounts_kind))
  ∧ accountsFile
      (disk (withFileLock accounts_kind return_seven lock_fails
               empty_world).1)
    = Holds defaultStorage.
Proof.
  split; [reflexivity|]. split; [|split; reflexivity].
  intros (i & j & Hi & Hj & Hlt).
  change (trace _) with
    [fs_access accounts_kind; fs_mkdir accounts_kind;
     fs_writeFile accounts_kind; lockfile_lock accounts_kind;
     lock_release accounts_kind] in Hi, Hj.
  destruct j as [|j]; [lia|].
  do 5 (destruct j as [|j]; [discriminate|]). discriminate.
Qed.

(** C9, amended: [withFileLock] first ensures that the file exists (its
    first call is [fs.access], and a failure of this step is thrown
    before any lock is taken), then takes the lock, then runs [fn]; when
    taking the lock fails the error is logged and thrown and [fn] does
    not run; once the lock is taken it is released after [fn], whether
    [fn] returned or threw (a throw is logged first); a failure to
    release is logged as a warning and changes nothing else, so the
    value or exception of [fn] is the outcome of the whole call. *)
Theorem withFileLock_protocol {T} (k : DocKind) (fn : IO T)
    (faults : Faults) (w : World) :
  (∃ rest,
     trace (ensureFileExists k faults w).1 = trace w ++ fs_access k :: rest
     ∧ lockfile_lock k ∉ rest)
  ∧ match ensureFileExists k faults w with
    | (w1, inl e) => withFileLock k fn faults w = (w1, inl e)
    | (w1, inr _) =>
        let w2 := record (lockfile_lock k) w1 in
        if faults (lockfile_lock k)
        then withFileLock k fn faults w
             = (record logger_error w2, inl (CallFailed (lockfile_lock k)))
        else
          let r := fn faults w2 in
          let w3 :=
            match r.2 with
            | inl _ => record logger_error r.1
            | inr _ => r.1
            end in
          let w4 := record (lock_release k) w3 in
          withFileLock k fn faults w
          = (if faults (lock_release k) then record logger_warn w4 else w4,
             r.2)
    end.
Proof.
  split; [apply ensureFileExists_trace|].
  unfold withFileLock.
  destruct (ensureFileExists k faults w) as [w1 [e|[]]]; [reflexivity|].
  unfold call.
  destruct (faults (lockfile_lock k)); simpl; [reflexivity|].
  destruct (fn faults (record (lockfile_lock k) w1)) as [w3 [e|v]]; simpl;
    destruct (faults (lock_release k)); reflexivity.
Qed.

(** ** Usage records and the accounts that own them *)



(** An update in place that keeps the id keeps the list of ids. *)
Lemma ids_alter (f : ManagedAccount → ManagedAccount) (i : nat)
    (accs : list ManagedAccount) :
  (∀ a, Acct.id (f a) = Acct.id a) →
  Acct.id <$> alter f i accs = Acct.id <$> accs.
Proof.
  intros Hf. revert i.
  induction accs as [|a accs IH]; intros [|i]; simpl; try reflexivity.
  - rewrite Hf. reflexivity.
  - f_equal. apply IH.
Qed.

Lemma ids_after_filter now (accs : list ManagedAccount) :
  Acct.id <$> after_filter now accs = Acct.id <$> accs.
Proof.
  unfold after_filter. rewrite <- list_fmap_compose.
  apply list_fmap_ext. intros _ a _. simpl.
  unfold filter_step.
  destruct (negb (Acct.isHealthy a)).
  - destruct (Js.set_and_reached _ _); reflexivity.
  - destruct (Js.set_and_pending _ _); reflexivity.
Qed.

Lemma touch_id now a : Acct.id (touch now a) = Acct.id a.
Proof. reflexivity. Qed.

Lemma apply_usage_id metadata a : Acct.id (apply_usage metadata a) = Acct.id a.
Proof. unfold apply_usage. destruct (Js.truthy_str _); reflexivity. Qed.

Lemma apply_auth_id decode now auth a :
  Acct.id (apply_auth decode now auth a) = Acct.id a.
Proof.
  unfold apply_auth.
  repeat match goal with |- context [if ?b then _ else _] => destruct b end;
    reflexivity.
Qed.

Create HintDb keeps_id.
#[local] Hint Resolve touch_id apply_usage_id apply_auth_id : keeps_id.

(** Selection changes neither the ids of the pool nor the usage map. *)
Lemma getCurrentOrNext_frame now now' m :
  Acct.id <$> accounts (getCurrentOrNext now now' m).2 = Acct.id <$> accounts m
  ∧ usage (getCurrentOrNext now now' m).2 = usage m.
Proof.
  unfold getCurrentOrNext.
  destruct (availableAccounts now (accounts m)) as [|first rest];
    [simpl; split; [apply ids_after_filter|reflexivity]|].
  destruct (strategy m).
  - destruct (after_filter now (accounts m) !! cursor m) as [cur|];
      [destruct (isAccountAvailable now' cur)|]; simpl;
      (split; [|reflexivity]);
      rewrite ids_alter by auto with keeps_id; apply ids_after_filter.
  - destruct ((first :: rest) !! _); simpl; (split; [|reflexivity]);
      rewrite ?ids_alter by auto with keeps_id; apply ids_after_filter.
  - destruct (Array_sort usage_cmp (first :: rest)); simpl;
      (split; [|reflexivity]);
      rewrite ?ids_alter by auto with keeps_id; apply ids_after_filter.
Qed.

Lemma findIndex_Some accountId (accs : list ManagedAccount) (i : nat) :
  findIndex accountId accs = Some i →
  ∃ a, accs !! i = Some a ∧ Acct.id a = accountId.
Proof.
  unfold findIndex. destruct (list_find _ accs) as [[j a]|] eqn:Hf;
    simpl; [|discriminate].
  intros [= <-]. apply list_find_Some in Hf as (Hj & Hid & _). eauto.
Qed.

Lemma ids_insert_same (accs : list ManagedAccount) (i : nat)
    (a b : ManagedAccount) :
  accs !! i = Some a → Acct.id b = Acct.id a →
  Acct.id <$> <[i := b]> accs = Acct.id <$> accs.
Proof.
  intros Hi Hid. rewrite list_fmap_insert, Hid.
  apply list_insert_id. rewrite list_lookup_fmap, Hi. reflexivity.
Qed.






Section MachineFacts.

Variable decode : string → RefreshParts.



End MachineFacts.




(** ** Selection does not look at the quota *)

(** C10: the pool loaded from an empty disk, after [addAccount] of a
    healthy account without rate limit and [updateUsage] reporting 100
    requests used of 100, holds an account that [checkQuotaStatus]
    classifies exhausted, and [getCurrentOrNext] returns that account
    under each strategy; the outcome of the availability filter, like
    that of [isAccountAvailable], does not depend on [usedCount] and
    [limitCount]. *)
Theorem exhausted_account_is_still_selected
    (decode : string → RefreshParts) (s : AccountSelectionStrategy) :
  (loadFromDisk (Some s) no_faults empty_world).2 = inr (constructor [] ∅ s)
  ∧ (let st :=
       run decode [OpAddAccount spent; spent_update]
         (constructor [] ∅ s, empty_world) in
     let r := getCurrentOrNext 3 3 st.1 in
     ∃ a,
       accounts st.1 !! 0%nat = Some a
       ∧ Acct.isHealthy a = true
       ∧ Acct.rateLimitResetTime a = None
       ∧ Acct.usedCount a = Some 100
       ∧ Acct.limitCount a = Some 100
       ∧ checkQuotaStatus a = exhausted
       ∧ r.1 = Some 0%nat
       ∧ Acct.id <$> returned r = Some (Acct.id a)
       ∧ checkQuotaStatus <$> returned r = Some exhausted)
  ∧ (∀ now a used limit,
       (filter_step now
          (Acct.set_limitCount limit (Acct.set_usedCount used a))).1
       = (filter_step now a).1
       ∧ isAccountAvailable now
           (Acct.set_limitCount limit (Acct.set_usedCount used a))
         = isAccountAvailable now a).
Proof.
  split; [destruct s; reflexivity|]. split.
  - exists (plain_account "acc-6" (Some 100) (Some 100)).
    destruct s; vm_compute; repeat split; reflexivity.
  - intros now a used limit. rewrite !filter_step_result.
    split; reflexivity.
Qed.

(** * Further properties *)

(** ** Quota arithmetic ([usage.ts]) *)


(** ** The account with the most quota *)

Lemma filterHealthyAccounts_elem a (l : list ManagedAccount) :
  a ∈ filterHealthyAccounts l ↔ a ∈ l ∧ quota_eligible a.
Proof.
  unfold filterHealthyAccounts, quota_eligible.
  rewrite !list_elem_of_In, filter_In.
  destruct (Acct.isHealthy a); simpl.
  - destruct (checkQuotaStatus a); split; intros [? ?]; split; auto;
      try discriminate; try (split; [reflexivity|discriminate]).
    destruct H0 as [_ H0]. congruence.
  - split; intros [? ?]; [discriminate|]. destruct H0. discriminate.
Qed.

Lemma StronglySorted_head_le {A} (R : A → A → Prop) x (l : list A) y :
  StronglySorted R (x :: l) → y ∈ l → R x y.
Proof.
  intros [Hall _]%StronglySorted_cons Hy.
  rewrite Forall_forall in Hall. auto.
Qed.

Lemma remaining_ge_refl a : remaining_ge a a.
Proof.
  unfold remaining_ge.
  destruct (getRemainingQuota_cases a) as [->|[x ->]]; simpl;
    [reflexivity|]. apply Z.leb_le. lia.
Qed.

(** X2: [getAccountWithMostQuota] returns [null] exactly when no account
    of the list is healthy with quota left; otherwise it returns an
    account of the list that is healthy, is not exhausted, and has at
    least as much remaining quota as every other such account (an
    account of unknown quota counting as infinite). *)
Theorem getAccountWithMostQuota_best (l : list ManagedAccount) :
  (getAccountWithMostQuota l = None ↔ ∀ a, a ∈ l → ¬ quota_eligible a)
  ∧ (∀ best, getAccountWithMostQuota l = Some best →
       best ∈ l ∧ quota_eligible best
       ∧ ∀ b, b ∈ l → quota_eligible b → remaining_ge best b).
Proof.
  unfold getAccountWithMostQuota.
  pose proof (Array_sort_Permutation quota_cmp (filterHealthyAccounts l))
    as Hperm.
  pose proof (Array_sort_sorted quota_cmp remaining_ge remaining_ge_trans
                quota_cmp_keep quota_cmp_swap (filterHealthyAccounts l))
    as Hsorted.
  fold (sortAccountsByQuota (filterHealthyAccounts l)) in Hperm, Hsorted.
  destruct (filterHealthyAccounts l) as [|h hs] eqn:Hf.
  - split.
    + split; [|reflexivity]. intros _ a Ha He.
      assert (Hin : a ∈ filterHealthyAccounts l)
        by (apply filterHealthyAccounts_elem; auto).
      rewrite Hf in Hin. inversion Hin.
    + intros best [=].
  - destruct (sortAccountsByQuota (h :: hs)) as [|s ss] eqn:Hs.
    { apply Permutation_nil_l in Hperm. discriminate. }
    simpl. split.
    + split; [discriminate|]. intros Hnone. exfalso.
      assert (Hin : h ∈ filterHealthyAccounts l)
        by (rewrite Hf; constructor).
      apply filterHealthyAccounts_elem in Hin as [Hl He].
      exact (Hnone h Hl He).
    + intros best [= <-].
      assert (Hin : s ∈ filterHealthyAccounts l).
      { rewrite Hf, <- Hperm. constructor. }
      apply filterHealthyAccounts_elem in Hin as [Hl He].
      split; [exact Hl|]. split; [exact He|].
      intros b Hb Heb.
      assert (Hbin : b ∈ s :: ss).
      { rewrite Hperm, <- Hf. apply filterHealthyAccounts_elem. auto. }
      apply elem_of_cons in Hbin as [->|Hbin]; [apply remaining_ge_refl|].
      eapply StronglySorted_head_le; eauto.
Qed.

(** ** The wait until the next rate limit ends *)

Lemma foldr_min_le (t : Z) (ts : list Z) :
  foldr Z.min t ts <= t ∧ ∀ x, x ∈ ts → foldr Z.min t ts <= x.
Proof.
  induction ts as [|y ts [IH1 IH2]]; simpl.
  - split; [lia|]. intros x Hx. inversion Hx.
  - split; [lia|]. intros x [->|Hx]%elem_of_cons; [lia|].
    specialize (IH2 x Hx). lia.
Qed.

Lemma foldr_min_elem (t : Z) (ts : list Z) : foldr Z.min t ts ∈ t :: ts.
Proof.
  induction ts as [|y ts IH]; simpl; [constructor|].
  destruct (Z.min_spec y (foldr Z.min t ts)) as [[_ ->]|[_ ->]].
  - apply elem_of_cons. right. constructor.
  - apply elem_of_cons in IH as [->|IH].
    + constructor.
    + do 2 (apply elem_of_cons; right). exact IH.
Qed.

(** X3: [getMinWaitTime] is never negative; it is 0 exactly when no
    account has a rate-limit reset time after [now]; otherwise it is the
    time left until the reset of some account of the pool, and no
    account with a reset time ahead has less time left. *)
Theorem getMinWaitTime_smallest (now : Z) (m : AccountManager) :
  let left a := Js.or_zero (Acct.rateLimitResetTime a) - now in
  0 <= getMinWaitTime now m
  ∧ (getMinWaitTime now m = 0 ↔ ∀ a, a ∈ accounts m → left a <= 0)
  ∧ (0 < getMinWaitTime now m →
     ∃ a, a ∈ accounts m ∧ getMinWaitTime now m = left a)
  ∧ (∀ a, a ∈ accounts m → 0 < left a → getMinWaitTime now m <= left a).
Proof.
  intros left. unfold getMinWaitTime.
  set (waits := List.filter (fun t => 0 <? t) (left <$> accounts m)).
  assert (Hw : ∀ t, t ∈ waits ↔ ∃ a, a ∈ accounts m ∧ t = left a ∧ 0 < t).
  { intros t. unfold waits.
    rewrite list_elem_of_In, filter_In, <- list_elem_of_In,
      list_elem_of_fmap, Z.ltb_lt.
    split.
    - intros [(a & -> & Ha) Hpos]. eauto.
    - intros (a & Ha & -> & Hpos). eauto. }
  change (List.filter (fun t => 0 <? t)
            ((fun a => Js.or_zero (Acct.rateLimitResetTime a) - now)
               <$> accounts m)) with waits.
  destruct waits as [|t ts] eqn:Hwaits.
  - split; [lia|]. split; [|split].
    + split; [|reflexivity]. intros _ a Ha.
      destruct (Z.le_gt_cases (left a) 0) as [?|Hpos]; [assumption|].
      assert (Hin : left a ∈ @nil Z) by (apply Hw; eauto).
      inversion Hin.
    + lia.
    + intros a Ha Hpos.
      assert (Hin : left a ∈ @nil Z) by (apply Hw; eauto).
      inversion Hin.
  - pose proof (foldr_min_elem t ts) as Hel.
    pose proof (foldr_min_le t ts) as [Hle1 Hle2].
    apply Hw in Hel as (a0 & Ha0 & Heq & Hpos).
    split; [lia|]. split; [|split].
    + split; [lia|]. intros Hall. specialize (Hall a0 Ha0). lia.
    + intros _. eauto.
    + intros a Ha Hp.
      assert (Hin : left a ∈ t :: ts) by (apply Hw; eauto).
      apply elem_of_cons in Hin as [->|Hin]; [exact Hle1|auto].
Qed.

(** ** Selection, for every strategy *)

Lemma available_from_elem now i (accs : list ManagedAccount) p a' :
  (p, a') ∈ available_from now i accs ↔
    ∃ a, (i <= p)%nat ∧ accs !! (p - i)%nat = Some a
         ∧ isAccountAvailable now a = true
         ∧ a' = (filter_step now a).2.
Proof.
  revert i. induction accs as [|x accs IH]; intros i; simpl.
  - split; [intros H; inversion H|]. intros (a & _ & [=] & _).
  - destruct (filter_step now x).1 eqn:Hx.
    + rewrite elem_of_cons, IH. split.
      * intros [[= -> ->]|(a & Hle & Hl & Ha & ->)].
        -- exists x. rewrite Nat.sub_diag. simpl.
           rewrite <- filter_step_result. auto.
        -- exists a. replace (p - i)%nat with (S (p - S i)) by lia.
           simpl. split; [lia|]. auto.
      * intros (a & Hle & Hl & Ha & ->).
        destruct (decide (p = i)) as [->|Hne].
        -- left. rewrite Nat.sub_diag in Hl. simpl in Hl.
           injection Hl as ->. reflexivity.
        -- right. exists a.
           replace (p - i)%nat with (S (p - S i)) in Hl by lia.
           simpl in Hl. split; [lia|]. auto.
    + rewrite IH. split.
      * intros (a & Hle & Hl & Ha & ->). exists a.
        replace (p - i)%nat with (S (p - S i)) by lia.
        simpl. split; [lia|]. auto.
      * intros (a & Hle & Hl & Ha & ->).
        destruct (decide (p = i)) as [->|Hne].
        -- rewrite Nat.sub_diag in Hl. simpl in Hl. injection Hl as ->.
           rewrite <- filter_step_result in Ha. congruence.
        -- exists a.
           replace (p - i)%nat with (S (p - S i)) in Hl by lia.
           simpl in Hl. split; [lia|]. auto.
Qed.

(** The filtered list holds exactly the accounts the predicate accepts,
    each at its position and as the filter left it. *)
Lemma availableAccounts_elem now (accs : list ManagedAccount) p a' :
  (p, a') ∈ availableAccounts now accs ↔
    ∃ a, accs !! p = Some a ∧ isAccountAvailable now a = true
         ∧ a' = (filter_step now a).2.
Proof.
  unfold availableAccounts. rewrite available_from_elem.
  rewrite Nat.sub_0_r. split.
  - intros (a & _ & ?). eauto.
  - intros (a & ?). exists a. split; [lia|]. auto.
Qed.

Lemma availableAccounts_nil now (accs : list ManagedAccount) :
  availableAccounts now accs = [] ↔
    ∀ a, a ∈ accs → isAccountAvailable now a = false.
Proof.
  split.
  - intros Hnil a Ha.
    destruct (isAccountAvailable now a) eqn:Hav; [|reflexivity].
    apply list_elem_of_lookup in Ha as [p Hp].
    assert (Hin : (p, (filter_step now a).2) ∈ availableAccounts now accs)
      by (apply availableAccounts_elem; eauto).
    rewrite Hnil in Hin. inversion Hin.
  - intros Hall.
    destruct (availableAccounts now accs) as [|[p a'] rest] eqn:Hav;
      [reflexivity|].
    assert (Hin : (p, a') ∈ availableAccounts now accs)
      by (rewrite Hav; constructor).
    apply availableAccounts_elem in Hin as (a & Hp & Ha & _).
    rewrite (Hall a) in Ha; [discriminate|].
    apply list_elem_of_lookup. eauto.
Qed.

(** How a call of [getCurrentOrNext] ends: with [null] and the array as
    the filter left it, or with a position [p] whose account it touched,
    which the filter kept or which is the sticky cursor. *)
Lemma getCurrentOrNext_shape now now' m :
  let r := getCurrentOrNext now now' m in
  let accs := after_filter now (accounts m) in
  (r.1 = None ∧ availableAccounts now (accounts m) = []
   ∧ r.2 = with_accounts accs m)
  ∨ (∃ p, r.1 = Some p
       ∧ availableAccounts now (accounts m) ≠ []
       ∧ accounts r.2 = alter (touch now) p accs
       ∧ usage r.2 = usage m ∧ strategy r.2 = strategy m
       ∧ (strategy m ≠ round_robin → cursor r.2 = p)
       ∧ ((∃ a', (p, a') ∈ availableAccounts now (accounts m))
          ∨ (strategy m = sticky ∧ p = cursor m
             ∧ ∃ cur, accs !! p = Some cur
                      ∧ isAccountAvailable now' cur = true))).
Proof.
  unfold getCurrentOrNext.
  destruct (availableAccounts now (accounts m)) as [|first rest] eqn:Hav;
    [left; auto|].
  right. destruct (strategy m) eqn:Hs.
  - destruct (after_filter now (accounts m) !! cursor m) as [cur|] eqn:Hc;
      [destruct (isAccountAvailable now' cur) eqn:Hcur|].
    + exists (cursor m). simpl. repeat split; auto; try discriminate.
      right. repeat split; eauto.
    + exists first.1. simpl. repeat split; auto; try discriminate.
      left. exists first.2. destruct first. simpl. constructor.
    + exists first.1. simpl. repeat split; auto; try discriminate.
      left. exists first.2. destruct first. simpl. constructor.
  - destruct ((first :: rest) !! (cursor m mod length (first :: rest))%nat)
      as [account|] eqn:Hl.
    + exists account.1. simpl. repeat split; auto; try discriminate.
      * intros H; congruence.
      * left. exists account.2. destruct account. simpl.
        apply list_elem_of_lookup. eauto.
    + apply lookup_ge_None in Hl.
      pose proof (Nat.mod_upper_bound (cursor m) (length (first :: rest)))
        as Hb. simpl in Hb, Hl. lia.
  - pose proof (Array_sort_Permutation usage_cmp (first :: rest)) as Hperm.
    destruct (Array_sort usage_cmp (first :: rest)) as [|selected ss] eqn:Hsort.
    { apply Permutation_nil_l in Hperm. discriminate. }
    exists selected.1. simpl. repeat split; auto; try discriminate.
    left. exists selected.2. destruct selected. simpl.
    rewrite <- Hperm. constructor.
Qed.

(** X4: [getCurrentOrNext] returns [null] exactly when
    [isAccountAvailable] rejects every account of the pool at the clock
    reading of the call, under every strategy; a call that returns
    [null] changes neither the usage map nor the cursor. *)
Theorem getCurrentOrNext_null_iff_none_available (now now' : Z)
    (m : AccountManager) :
  ((getCurrentOrNext now now' m).1 = None ↔
     ∀ a, a ∈ accounts m → isAccountAvailable now a = false)
  ∧ ((getCurrentOrNext now now' m).1 = None →
     usage (getCurrentOrNext now now' m).2 = usage m
     ∧ cursor (getCurrentOrNext now now' m).2 = cursor m
     ∧ accounts (getCurrentOrNext now now' m).2 = accounts m).
Proof.
  rewrite <- availableAccounts_nil.
  destruct (getCurrentOrNext_shape now now' m)
    as [(Hr & Hnil & Hm)|(p & Hr & Hne & _)].
  - split; [split; auto|]. intros _. rewrite Hm. simpl.
    repeat split.
    unfold after_filter. rewrite <- (list_fmap_id (accounts m)) at 2.
    apply list_fmap_ext. intros i a Ha. simpl.
    assert (Hav : isAccountAvailable now a = false).
    { apply (proj1 (availableAccounts_nil now (accounts m)) Hnil).
      apply list_elem_of_lookup. eauto. }
    unfold filter_step, isAccountAvailable in *.
    destruct (negb (Acct.isHealthy a)).
    + destruct (Js.set_and_reached _ _); [discriminate|reflexivity].
    + destruct (Js.set_and_pending _ _); reflexivity.
  - rewrite Hr. split; [|discriminate].
    split; [discriminate|]. intros Hnil. contradiction.
Qed.

Lemma filter_step_healthy now a :
  Acct.isHealthy a = true → (filter_step now a).2 = a.
Proof.
  intros Hh. unfold filter_step. rewrite Hh. simpl.
  destruct (Js.set_and_pending _ _); reflexivity.
Qed.

(** The filter changes no field that selection compares or that the
    rate limit reads. *)
Lemma filter_step_keeps now a :
  Acct.usedCount (filter_step now a).2 = Acct.usedCount a
  ∧ Acct.lastUsed (filter_step now a).2 = Acct.lastUsed a
  ∧ Acct.rateLimitResetTime (filter_step now a).2 = Acct.rateLimitResetTime a
  ∧ Acct.id (filter_step now a).2 = Acct.id a.
Proof.
  unfold filter_step. destruct (negb (Acct.isHealthy a)).
  - destruct (Js.set_and_reached _ _); repeat split; reflexivity.
  - destruct (Js.set_and_pending _ _); repeat split; reflexivity.
Qed.

(** X5: a call of [getCurrentOrNext] that returns an account leaves the
    usage map, the strategy, the number of accounts and their ids as
    they were; the returned account is the one the filter left at that
    position with [lastUsed] set to the clock reading and [usedCount]
    one more than before (an unset count reading as 0); every other
    account is as the filter left it, and unchanged if it was healthy. *)
Theorem getCurrentOrNext_effect (now now' : Z) (m : AccountManager)
    (p : nat) :
  (getCurrentOrNext now now' m).1 = Some p →
  let m' := (getCurrentOrNext now now' m).2 in
  usage m' = usage m ∧ strategy m' = strategy m
  ∧ length (accounts m') = length (accounts m)
  ∧ ids m' = ids m
  ∧ (∃ a a', accounts m !! p = Some a ∧ accounts m' !! p = Some a'
       ∧ a' = touch now (filter_step now a).2
       ∧ Acct.lastUsed a' = Some now
       ∧ Acct.usedCount a' = Some (Js.or_zero (Acct.usedCount a) + 1))
  ∧ (∀ q a, q ≠ p → accounts m !! q = Some a →
       accounts m' !! q = Some (filter_step now a).2)
  ∧ (∀ q a, q ≠ p → accounts m !! q = Some a → Acct.isHealthy a = true →
       accounts m' !! q = Some a).
Proof.
  intros Hp m'.
  destruct (getCurrentOrNext_frame now now' m) as [Hids Hu].
  destruct (getCurrentOrNext_shape now now' m)
    as [(Hr & _)|(p' & Hr & _ & Hacc & _ & Hs & _ & Hwhere)];
    [congruence|].
  assert (p' = p) as -> by congruence.
  fold m' in Hacc, Hu, Hs, Hids.
  assert (Hother : ∀ q a, q ≠ p → accounts m !! q = Some a →
            accounts m' !! q = Some (filter_step now a).2).
  { intros q a Hne Hq. rewrite Hacc.
    rewrite list_lookup_alter_ne by auto.
    unfold after_filter. rewrite list_lookup_fmap, Hq. reflexivity. }
  assert (Hat : ∃ a, accounts m !! p = Some a).
  { destruct Hwhere as [[a' Hin]|(_ & _ & cur & Hcur & _)].
    - apply availableAccounts_elem in Hin as (a & Ha & _). eauto.
    - unfold after_filter in Hcur. rewrite list_lookup_fmap in Hcur.
      destruct (accounts m !! p); [eauto|discriminate]. }
  destruct Hat as [a Ha].
  split; [exact Hu|]. split; [exact Hs|].
  split.
  { rewrite Hacc. rewrite length_alter. unfold after_filter.
    apply length_fmap. }
  split; [exact Hids|]. split; [|split; [exact Hother|]].
  - exists a, (touch now (filter_step now a).2).
    split; [exact Ha|]. split.
    + rewrite Hacc, list_lookup_alter_eq. unfold after_filter.
      rewrite list_lookup_fmap, Ha. reflexivity.
    + split; [reflexivity|]. split; [reflexivity|]. simpl.
      destruct (filter_step_keeps now a) as (-> & _). reflexivity.
  - intros q b Hne Hq Hh. rewrite (Hother q b Hne Hq).
    rewrite filter_step_healthy by exact Hh. reflexivity.
Qed.

(** In [rr_pool] the first call at time 10 returns position 2. *)
Lemma getCurrentOrNext_effect_witness :
  usage (getCurrentOrNext 10 10 rr_pool).2 = usage rr_pool
  ∧ length (accounts (getCurrentOrNext 10 10 rr_pool).2) = 3%nat.
Proof.
  pose proof (getCurrentOrNext_effect 10 10 rr_pool 2 eq_refl) as H.
  destruct H as (H1 & _ & H3 & _). split; assumption.
Defined.

(** X6: what [isAccountAvailable] says of the account that
    [getCurrentOrNext] returns, before and after the call.  The account
    at the returned position was, before the call, one the predicate
    accepted at the clock reading of the call, or, under the sticky
    strategy, the filter left at the cursor an account the predicate
    accepted at its own later clock reading.  When both readings are
    the same instant: the account was accepted before the call; the
    returned account, as the call leaves it, is healthy; the predicate
    accepts it at that instant exactly when no rate limit is pending on
    it, so an account that was healthy before the call is still
    accepted, and an account that the call recovered while its rate
    limit was pending is returned although the predicate rejects it
    afterwards, as the account of [limited_pool] at time 500. *)
Theorem getCurrentOrNext_returned_account (now now' : Z)
    (m : AccountManager) (p : nat) :
  (getCurrentOrNext now now' m).1 = Some p →
  ∃ a a', accounts m !! p = Some a
       ∧ accounts (getCurrentOrNext now now' m).2 !! p = Some a'
       ∧ (isAccountAvailable now a = true
          ∨ (strategy m = sticky ∧ p = cursor m
             ∧ isAccountAvailable now' (filter_step now a).2 = true))
       ∧ (now' = now →
          isAccountAvailable now a = true
          ∧ Acct.isHealthy a' = true
          ∧ isAccountAvailable now a'
            = negb (Js.set_and_pending (Acct.rateLimitResetTime a) now)
          ∧ (Acct.isHealthy a = true → isAccountAvailable now a' = true))
       ∧ (∀ s, ∃ b',
            (getCurrentOrNext 500 500 (limited_pool s)).1 = Some 0%nat
            ∧ accounts (getCurrentOrNext 500 500 (limited_pool s)).2 !! 0%nat
              = Some b'
            ∧ isAccountAvailable 500 recovered_but_limited = true
            ∧ isAccountAvailable 500 b' = false).
Proof.
  intros Hp.
  destruct (getCurrentOrNext_shape now now' m)
    as [(Hr & _)|(p' & Hr & _ & Hacc & _ & _ & _ & Hwhere)]; [congruence|].
  assert (p' = p) as -> by congruence.
  assert (Hlim : ∀ s, ∃ b',
            (getCurrentOrNext 500 500 (limited_pool s)).1 = Some 0%nat
            ∧ accounts (getCurrentOrNext 500 500 (limited_pool s)).2 !! 0%nat
              = Some b'
            ∧ isAccountAvailable 500 recovered_but_limited = true
            ∧ isAccountAvailable 500 b' = false).
  { intros s. exists (touch 500 (recover recovered_but_limited)).
    destruct s; vm_compute; repeat split; reflexivity. }
  assert (Hpost : ∀ a, isAccountAvailable now a = true →
            Acct.isHealthy (touch now (filter_step now a).2) = true
            ∧ isAccountAvailable now (touch now (filter_step now a).2)
              = negb (Js.set_and_pending (Acct.rateLimitResetTime a) now)
            ∧ (Acct.isHealthy a = true →
               isAccountAvailable now (touch now (filter_step now a).2)
               = true)).
  { intros a. unfold filter_step, isAccountAvailable.
    destruct (Acct.isHealthy a) eqn:Hh; simpl.
    - destruct (Js.set_and_pending (Acct.rateLimitResetTime a) now) eqn:Hq;
        simpl; [discriminate|]. intros _. rewrite Hh. simpl. rewrite Hq.
      auto.
    - destruct (Js.set_and_reached (Acct.recoveryTime a) now) eqn:Hq;
        simpl; [|discriminate]. intros _.
      destruct (Js.set_and_pending (Acct.rateLimitResetTime a) now);
        simpl; split; try reflexivity; split; try reflexivity;
        discriminate. }
  assert (Hsame : ∀ a, isAccountAvailable now (filter_step now a).2 = true →
            isAccountAvailable now a = true).
  { intros a. unfold filter_step, isAccountAvailable.
    destruct (Acct.isHealthy a) eqn:Hh; simpl.
    - destruct (Js.set_and_pending (Acct.rateLimitResetTime a) now) eqn:Hq;
        simpl; rewrite Hh; simpl; rewrite ?Hq; auto.
    - destruct (Js.set_and_reached (Acct.recoveryTime a) now) eqn:Hq;
        simpl; [auto|]. rewrite Hh. simpl. rewrite Hq. auto. }
  assert (Hat : ∀ a, accounts m !! p = Some a →
            accounts (getCurrentOrNext now now' m).2 !! p
            = Some (touch now (filter_step now a).2)).
  { intros a Ha. rewrite Hacc, list_lookup_alter_eq. unfold after_filter.
    rewrite list_lookup_fmap, Ha. reflexivity. }
  destruct Hwhere as [[a0 Hin]|(Hs & Hc & cur & Hcur & Hav)].
  - apply availableAccounts_elem in Hin as (a & Ha & Hav & _).
    exists a, (touch now (filter_step now a).2).
    split; [exact Ha|]. split; [exact (Hat a Ha)|].
    split; [left; exact Hav|]. split; [|exact Hlim].
    intros _. split; [exact Hav|]. exact (Hpost a Hav).
  - unfold after_filter in Hcur. rewrite list_lookup_fmap in Hcur.
    destruct (accounts m !! p) as [a|] eqn:Ha; [|discriminate].
    simpl in Hcur. injection Hcur as <-.
    exists a, (touch now (filter_step now a).2).
    split; [reflexivity|]. split; [exact (Hat a eq_refl)|].
    split; [right; auto|]. split; [|exact Hlim].
    intros ->. pose proof (Hsame a Hav) as Hpre.
    split; [exact Hpre|]. exact (Hpost a Hpre).
Qed.

(** In [rr_pool] the first call at time 10 returns position 2, whose
    account was and stays accepted. *)
Lemma getCurrentOrNext_returned_account_witness :
  ∃ a a', accounts rr_pool !! 2%nat = Some a
          ∧ accounts (getCurrentOrNext 10 10 rr_pool).2 !! 2%nat = Some a'
          ∧ isAccountAvailable 10 a = true
          ∧ Acct.isHealthy a' = true.
Proof.
  destruct (getCurrentOrNext_returned_account 10 10 rr_pool 2 eq_refl)
    as (a & a' & Ha & Ha' & _ & Hav & _).
  destruct (Hav eq_refl) as (H1 & H2 & _).
  exists a, a'. repeat split; assumption.
Defined.

(** ** The sticky strategy *)

Lemma healthy_available now a :
  Acct.isHealthy a = true →
  Js.set_and_pending (Acct.rateLimitResetTime a) now = false →
  isAccountAvailable now a = true.
Proof.
  intros Hh Hp. unfold isAccountAvailable. rewrite Hh, Hp. reflexivity.
Qed.

(** One sticky call on a healthy current account that no rate limit
    holds back. *)
Lemma sticky_call now now' m a :
  strategy m = sticky →
  accounts m !! cursor m = Some a →
  Acct.isHealthy a = true →
  Js.set_and_pending (Acct.rateLimitResetTime a) now = false →
  Js.set_and_pending (Acct.rateLimitResetTime a) now' = false →
  let r := getCurrentOrNext now now' m in
  r.1 = Some (cursor m) ∧ cursor r.2 = cursor m ∧ strategy r.2 = sticky
  ∧ accounts r.2 !! cursor m = Some (touch now a).
Proof.
  intros Hs Hc Hh Hp Hp'.
  assert (Hin : (cursor m, (filter_step now a).2)
                ∈ availableAccounts now (accounts m)).
  { apply availableAccounts_elem. exists a.
    split; [exact Hc|]. split; [apply healthy_available; auto|reflexivity]. }
  unfold getCurrentOrNext. rewrite Hs.
  destruct (availableAccounts now (accounts m)) as [|first rest];
    [inversion Hin|].
  assert (Hcur : after_filter now (accounts m) !! cursor m = Some a).
  { unfold after_filter. rewrite list_lookup_fmap, Hc. simpl.
    rewrite filter_step_healthy by exact Hh. reflexivity. }
  rewrite Hcur. rewrite (healthy_available now' a Hh Hp'). simpl.
  repeat split; auto.
  rewrite list_lookup_alter_eq, Hcur. reflexivity.
Qed.

(** X7: under the sticky strategy, while the account at the cursor is
    healthy and no rate limit holds it back at the clock readings of
    the calls, every call returns that account and leaves the cursor
    where it is; its request count grows by one per call. *)
Theorem sticky_keeps_current (times : list (Z * Z)) (m : AccountManager)
    (a : ManagedAccount) :
  strategy m = sticky →
  accounts m !! cursor m = Some a →
  Acct.isHealthy a = true →
  (∀ t, t ∈ times →
     Js.set_and_pending (Acct.rateLimitResetTime a) t.1 = false
     ∧ Js.set_and_pending (Acct.rateLimitResetTime a) t.2 = false) →
  (select_many times m).1 = replicate (length times) (Some (cursor m))
  ∧ cursor (select_many times m).2 = cursor m
  ∧ ∃ a', accounts (select_many times m).2 !! cursor m = Some a'
          ∧ Js.or_zero (Acct.usedCount a')
            = Js.or_zero (Acct.usedCount a) + Z.of_nat (length times).
Proof.
  revert m a. induction times as [|t times IH]; intros m a Hs Hc Hh Hall.
  - simpl. repeat split. exists a. split; [exact Hc|lia].
  - destruct (Hall t ltac:(constructor)) as [Hp Hp'].
    destruct (sticky_call t.1 t.2 m a Hs Hc Hh Hp Hp') as (H1 & H2 & H3 & H4).
    rewrite <- H2 in H4.
    destruct (IH _ (touch t.1 a) H3 H4 Hh) as (I1 & I2 & a' & Ha' & Hcount).
    { intros t' Ht'. apply Hall. apply elem_of_cons. auto. }
    cbn [select_many fst snd length replicate].
    rewrite I1, I2, H1, H2. repeat split.
    exists a'. rewrite <- H2. split; [exact Ha'|].
    rewrite Hcount. simpl. lia.
Qed.

(** Three sticky calls on the accounts of [lu_pool] with the cursor on
    B, a healthy account without rate limit. *)
Lemma sticky_keeps_current_witness :
  (select_many [(1, 1); (2, 2); (3, 3)]
     (mkManager (accounts lu_pool) ∅ 1%nat sticky)).1
  = [Some 1%nat; Some 1%nat; Some 1%nat].
Proof.
  pose proof (sticky_keeps_current [(1, 1); (2, 2); (3, 3)]
                (mkManager (accounts lu_pool) ∅ 1%nat sticky)
                (plain_account "B" (Some 1) None)
                eq_refl eq_refl eq_refl) as H.
  destruct H as (H & _).
  - intros t _. split; reflexivity.
  - exact H.
Defined.

(** The first entry of the filtered list is the first account of the
    array that the predicate accepts. *)
Lemma available_from_head now i (accs : list ManagedAccount) p a' rest :
  available_from now i accs = (p, a') :: rest →
  (i <= p)%nat
  ∧ ∀ q a, (q < p - i)%nat → accs !! q = Some a →
      isAccountAvailable now a = false.
Proof.
  revert i. induction accs as [|x accs IH]; intros i; simpl; [discriminate|].
  destruct (filter_step now x).1 eqn:Hx.
  - intros [= -> _ _]. split; [lia|]. intros q a Hq. lia.
  - intros Hav. destruct (IH _ Hav) as [Hle Hbefore].
    split; [lia|]. intros [|q] a Hq Ha; simpl in Ha.
    + injection Ha as <-. rewrite <- filter_step_result. exact Hx.
    + apply (Hbefore q a); [lia|exact Ha].
Qed.

(** X8: under the sticky strategy, when the cursor is out of range or
    [isAccountAvailable] rejects the account at the cursor as the
    filter left it, and some account is available, the call returns the
    first available account in array order and moves the cursor to its
    position. *)
Theorem sticky_falls_back_to_first (now now' : Z) (m : AccountManager)
    (p : nat) :
  strategy m = sticky →
  (∀ cur, after_filter now (accounts m) !! cursor m = Some cur →
     isAccountAvailable now' cur = false) →
  (getCurrentOrNext now now' m).1 = Some p →
  cursor (getCurrentOrNext now now' m).2 = p
  ∧ (∃ a, accounts m !! p = Some a ∧ isAccountAvailable now a = true)
  ∧ (∀ q a, (q < p)%nat → accounts m !! q = Some a →
       isAccountAvailable now a = false).
Proof.
  intros Hs Hcur. unfold getCurrentOrNext. rewrite Hs.
  destruct (availableAccounts now (accounts m)) as [|[p0 a0] rest] eqn:Hav;
    [discriminate|].
  assert (Hin : (p0, a0) ∈ availableAccounts now (accounts m))
    by (rewrite Hav; constructor).
  apply availableAccounts_elem in Hin as (a & Ha & Havail & _).
  destruct (available_from_head now 0 (accounts m) p0 a0 rest Hav)
    as [_ Hbefore].
  destruct (after_filter now (accounts m) !! cursor m) as [cur|] eqn:Hc.
  - rewrite (Hcur cur eq_refl). simpl. intros [= <-].
    split; [reflexivity|]. split; [eauto|].
    intros q b Hq. apply Hbefore. lia.
  - simpl. intros [= <-].
    split; [reflexivity|]. split; [eauto|].
    intros q b Hq. apply Hbefore. lia.
Qed.

(** In [limited_pool] the account at the cursor is rate limited once the
    filter has recovered it, and the call falls back to position 0. *)
Lemma sticky_falls_back_to_first_witness :
  cursor (getCurrentOrNext 500 500 (limited_pool sticky)).2 = 0%nat.
Proof.
  apply (sticky_falls_back_to_first 500 500 (limited_pool sticky) 0).
  - reflexivity.
  - intros cur [= <-]. reflexivity.
  - reflexivity.
Defined.

(** ** The lowest-usage strategy *)

Section ArraySortHead.

Context {A : Type} (cmp : A → A → Num.t).

(** [x] sorts strictly after [y]. *)
Let after (x y : A) : Prop := Num.positive (cmp x y) = true.

Hypothesis not_after_trans :
  ∀ x y z, ¬ after x y → ¬ after y z → ¬ after x z.
Hypothesis not_after_before :
  ∀ x y z, ¬ after x y → after z y → ¬ after x z.

(** The first element of the sorted list stands in the input after
    elements that sort strictly after it only, and nothing that follows
    it sorts before it: the sort is stable at its head. *)
Lemma Array_sort_head (l : list A) h rest :
  Array_sort cmp l = h :: rest →
  ∃ l1 l2, l = l1 ++ h :: l2
    ∧ (∀ y, y ∈ l1 → after y h)
    ∧ (∀ y, y ∈ l2 → ¬ after h y).
Proof.
  revert h rest. induction l as [|x l IH]; intros h rest; [discriminate|].
  simpl. destruct (Array_sort cmp l) as [|h0 rest0] eqn:Hs.
  - simpl. intros [= <- <-].
    assert (l = []) as ->.
    { pose proof (Array_sort_Permutation cmp l) as Hp.
      rewrite Hs in Hp. apply Permutation_nil_l in Hp. auto. }
    exists [], []. split; [reflexivity|].
    split; intros y Hy; inversion Hy.
  - destruct (IH h0 rest0 eq_refl) as (l1 & l2 & -> & H1 & H2).
    simpl. destruct (Num.positive (cmp x h0)) eqn:Hc.
    + intros [= <- _]. exists (x :: l1), l2. split; [reflexivity|].
      split; [|exact H2].
      intros y [->|Hy]%elem_of_cons; [exact Hc|auto].
    + intros [= <- _]. exists [], (l1 ++ h0 :: l2).
      split; [reflexivity|]. split; [intros y Hy; inversion Hy|].
      assert (Hx : ¬ after x h0) by (unfold after; congruence).
      intros y [Hy|[->|Hy]%elem_of_cons]%elem_of_app.
      * eapply not_after_before; eauto.
      * exact Hx.
      * eapply not_after_trans; eauto.
Qed.

End ArraySortHead.

Lemma usage_cmp_after x y :
  Num.positive (usage_cmp x y) = true ↔ ¬ usage_le x.2 y.2.
Proof.
  unfold usage_cmp, usage_le.
  destruct (Z.eqb_spec (Js.or_zero (Acct.usedCount x.2))
              (Js.or_zero (Acct.usedCount y.2))) as [He|Hne]; simpl;
    rewrite Z.ltb_lt; lia.
Qed.

Lemma usage_le_total a b : usage_le a b ∨ usage_le b a.
Proof. unfold usage_le. lia. Qed.

Lemma available_from_increasing now i (accs : list ManagedAccount) l1 x l2 :
  available_from now i accs = l1 ++ x :: l2 →
  ∀ y, y ∈ l1 → (y.1 < x.1)%nat.
Proof.
  revert i l1. induction accs as [|a accs IH]; intros i l1; simpl.
  - destruct l1; discriminate.
  - destruct (filter_step now a).1.
    + destruct l1 as [|z l1]; simpl.
      * intros _ y Hy. inversion Hy.
      * intros [= <- Hrest] y [->|Hy]%elem_of_cons.
        -- simpl.
           assert (Hx : x.1 ∈ (available_from now (S i) accs).*1).
           { rewrite Hrest, fmap_app, elem_of_app. right. simpl.
             constructor. }
           apply available_from_positions in Hx. lia.
        -- eapply IH; eauto.
    + apply IH.
Qed.

(** X9: under the lowest-usage strategy the returned account is an
    available account with the fewest requests (an unset count reading
    as 0) and, among those, the oldest [lastUsed] (unset reading as 0);
    when several available accounts tie on both, the one that comes
    first in the pool is returned; the cursor is set to the position of
    the returned account. *)
Theorem lowest_usage_picks_least (now now' : Z) (m : AccountManager)
    (p : nat) :
  strategy m = lowest_usage →
  (getCurrentOrNext now now' m).1 = Some p →
  cursor (getCurrentOrNext now now' m).2 = p
  ∧ ∃ a, accounts m !! p = Some a ∧ isAccountAvailable now a = true
    ∧ (∀ q b, accounts m !! q = Some b → isAccountAvailable now b = true →
         usage_le a b)
    ∧ (∀ q b, accounts m !! q = Some b → isAccountAvailable now b = true →
         (q < p)%nat → ¬ usage_le b a).
Proof.
  intros Hs. unfold getCurrentOrNext. rewrite Hs.
  destruct (availableAccounts now (accounts m)) as [|first rest] eqn:Hav;
    [discriminate|]. rewrite <- Hav.
  destruct (Array_sort usage_cmp (availableAccounts now (accounts m)))
    as [|[p0 a0] ss] eqn:Hsort; [discriminate|].
  simpl. intros [= <-]. split; [reflexivity|].
  destruct (Array_sort_head usage_cmp) with
    (l := availableAccounts now (accounts m)) (h := (p0, a0)) (rest := ss)
    as (l1 & l2 & Hsplit & Hbefore & Hafter).
  { intros x y z. rewrite !usage_cmp_after. unfold usage_le. lia. }
  { intros x y z. rewrite !usage_cmp_after. unfold usage_le. lia. }
  { exact Hsort. }
  assert (Hin : (p0, a0) ∈ availableAccounts now (accounts m)).
  { rewrite Hsplit, elem_of_app. right. constructor. }
  apply availableAccounts_elem in Hin as (a & Ha & Havail & ->).
  assert (Hkey : ∀ x, usage_le (filter_step now x).2 = usage_le x
                      ∧ ∀ y, usage_le y (filter_step now x).2 = usage_le y x).
  { intros x. unfold usage_le.
    destruct (filter_step_keeps now x) as (-> & -> & _). auto. }
  exists a. split; [exact Ha|]. split; [exact Havail|]. split.
  - intros q b Hq Hb.
    assert (Hbin : (q, (filter_step now b).2)
                   ∈ availableAccounts now (accounts m))
      by (apply availableAccounts_elem; eauto).
    rewrite Hsplit in Hbin.
    destruct (Hkey a) as [Ha1 Ha2]. destruct (Hkey b) as [Hb1 Hb2].
    apply elem_of_app in Hbin as [Hbin|[Heq|Hbin]%elem_of_cons].
    + specialize (Hbefore _ Hbin). apply usage_cmp_after in Hbefore.
      simpl in Hbefore. rewrite Hb1, Ha2 in Hbefore.
      destruct (usage_le_total a b); tauto.
    + injection Heq as -> Heq. rewrite Ha in Hq. injection Hq as <-.
      unfold usage_le. lia.
    + specialize (Hafter _ Hbin). rewrite usage_cmp_after in Hafter.
      simpl in Hafter. rewrite Ha1, Hb2 in Hafter.
      unfold usage_le in *. lia.
  - intros q b Hq Hb Hlt.
    assert (Hbin : (q, (filter_step now b).2)
                   ∈ availableAccounts now (accounts m))
      by (apply availableAccounts_elem; eauto).
    rewrite Hsplit in Hbin.
    destruct (Hkey a) as [Ha1 Ha2]. destruct (Hkey b) as [Hb1 Hb2].
    apply elem_of_app in Hbin as [Hbin|Hbin].
    + specialize (Hbefore _ Hbin). apply usage_cmp_after in Hbefore.
      simpl in Hbefore. rewrite Hb1, Ha2 in Hbefore. exact Hbefore.
    + exfalso.
      apply elem_of_cons in Hbin as [Heq|Hbin]; [injection Heq; lia|].
      apply list_elem_of_split in Hbin as (l2a & l2b & ->).
      unfold availableAccounts in Hsplit.
      change (available_from now 0 (accounts m)
              = l1 ++ [(p0, (filter_step now a).2)]
                ++ l2a ++ (q, (filter_step now b).2) :: l2b) in Hsplit.
      rewrite !app_assoc in Hsplit.
      pose proof (available_from_increasing now 0 (accounts m) _ _ _ Hsplit
                    (p0, (filter_step now a).2)) as Hinc.
      simpl in Hinc.
      assert ((p0 < q)%nat); [|lia].
      apply Hinc. rewrite !elem_of_app. left. right. constructor.
Qed.

(** [lu_pool] at time 1: B has the fewest requests. *)
Lemma lowest_usage_picks_least_witness :
  cursor (getCurrentOrNext 1 1 lu_pool).2 = 1%nat.
Proof.
  apply (lowest_usage_picks_least 1 1 lu_pool 1); reflexivity.
Defined.

(** ** Adding and removing accounts *)

Lemma findIndex_None accountId (accs : list ManagedAccount) :
  findIndex accountId accs = None ↔ accountId ∉ Acct.id <$> accs.
Proof.
  unfold findIndex.
  destruct (list_find _ accs) as [[i a]|] eqn:Hf; simpl.
  - split; [discriminate|]. intros Hn. exfalso. apply Hn.
    apply list_find_Some in Hf as (Hi & <- & _).
    apply list_elem_of_fmap. exists a. split; [reflexivity|].
    apply list_elem_of_lookup. eauto.
  - split; [|reflexivity]. intros _.
    rewrite list_find_None, Forall_forall in Hf.
    intros (a & -> & Ha)%list_elem_of_fmap. exact (Hf a Ha eq_refl).
Qed.

Lemma findIndex_first accountId (accs : list ManagedAccount) (i : nat) :
  findIndex accountId accs = Some i ↔
    (∃ a, accs !! i = Some a ∧ Acct.id a = accountId)
    ∧ ∀ j b, (j < i)%nat → accs !! j = Some b → Acct.id b ≠ accountId.
Proof.
  unfold findIndex. split.
  - destruct (list_find _ accs) as [[j a]|] eqn:Hf; [|discriminate].
    simpl. intros [= ->].
    apply list_find_Some in Hf as (Hi & Hid & Hbefore).
    split; [eauto|]. intros j b Hj Hb. exact (Hbefore j b Hb Hj).
  - intros [(a & Hi & Hid) Hbefore].
    assert (Hf : list_find (fun a => Acct.id a = accountId) accs
                 = Some (i, a)).
    { apply list_find_Some. split; [exact Hi|]. split; [exact Hid|].
      intros j b Hb Hj. exact (Hbefore j b Hj Hb). }
    rewrite Hf. reflexivity.
Qed.

(** X10: [addAccount] inserts or replaces by id: afterwards the first
    account of the pool with the id of the argument is the argument
    itself; an id that was not in the pool makes the pool one longer
    with the account at its end, an id that was there leaves the length
    and the list of ids as they were; the usage map and the cursor are
    not touched; adding the same account twice is adding it once. *)
Theorem addAccount_upsert (account : ManagedAccount) (m : AccountManager) :
  (∃ i, findIndex (Acct.id account) (accounts (addAccount account m)) = Some i
        ∧ accounts (addAccount account m) !! i = Some account)
  ∧ (Acct.id account ∉ ids m →
     accounts (addAccount account m) = accounts m ++ [account])
  ∧ (Acct.id account ∈ ids m →
     length (accounts (addAccount account m)) = length (accounts m)
     ∧ ids (addAccount account m) = ids m)
  ∧ usage (addAccount account m) = usage m
  ∧ cursor (addAccount account m) = cursor m
  ∧ addAccount account (addAccount account m) = addAccount account m.
Proof.
  unfold ids.
  assert (Hfound : ∃ i,
            findIndex (Acct.id account) (accounts (addAccount account m))
            = Some i
            ∧ accounts (addAccount account m) !! i = Some account).
  { unfold addAccount.
    destruct (findIndex (Acct.id account) (accounts m)) as [i|] eqn:Hf;
      simpl.
    - apply findIndex_first in Hf as [(a & Hi & Hid) Hbefore].
      exists i. split.
      + apply findIndex_first. split.
        * exists account. split; [|reflexivity].
          apply list_lookup_insert_eq. eapply lookup_lt_Some; eauto.
        * intros j b Hj Hb. rewrite list_lookup_insert_ne in Hb by lia.
          eauto.
      + apply list_lookup_insert_eq. eapply lookup_lt_Some; eauto.
    - exists (length (accounts m)). split.
      + apply findIndex_first. split.
        * exists account. split; [|reflexivity].
          rewrite lookup_app_r by lia. rewrite Nat.sub_diag. reflexivity.
        * intros j b Hj Hb. rewrite lookup_app_l in Hb by exact Hj.
          apply findIndex_None in Hf. intros Hid. apply Hf.
          apply list_elem_of_fmap. exists b. split; [auto|].
          apply list_elem_of_lookup. eauto.
      + rewrite lookup_app_r by lia. rewrite Nat.sub_diag. reflexivity. }
  split; [exact Hfound|]. split; [|split; [|split; [|split]]].
  - intros Hn. apply findIndex_None in Hn. unfold addAccount.
    rewrite Hn. reflexivity.
  - intros Hin. unfold addAccount.
    destruct (findIndex (Acct.id account) (accounts m)) as [i|] eqn:Hf.
    + simpl. rewrite length_insert. split; [reflexivity|].
      apply findIndex_Some in Hf as (a & Hi & Hid).
      apply (ids_insert_same _ _ a); auto.
    + apply findIndex_None in Hf. contradiction.
  - clear Hfound. unfold addAccount.
    destruct (findIndex (Acct.id account) (accounts m)); reflexivity.
  - clear Hfound. unfold addAccount.
    destruct (findIndex (Acct.id account) (accounts m)); reflexivity.
  - destruct Hfound as (i & Hf & Hi).
    unfold addAccount at 1. rewrite Hf.
    rewrite list_insert_id by exact Hi. clear Hf Hi.
    unfold addAccount.
    destruct (findIndex (Acct.id account) (accounts m)); reflexivity.
Qed.

Lemma filter_other_ids (account : ManagedAccount)
    (accs : list ManagedAccount) a :
  a ∈ List.filter
        (fun a => negb (String.eqb (Acct.id a) (Acct.id account))) accs
  ↔ a ∈ accs ∧ Acct.id a ≠ Acct.id account.
Proof.
  rewrite !list_elem_of_In, filter_In, negb_true_iff, String.eqb_neq.
  reflexivity.
Qed.

(** The cursor that [removeAccount] leaves for a pool of [n] accounts. *)
Lemma cursor_clamp (n c : nat) :
  let c' :=
    if (n <=? c)%nat && (0 <? n)%nat then (n - 1)%nat
    else if (n =? 0)%nat then 0%nat
    else c in
  (c' < n)%nat ∨ (n = 0%nat ∧ c' = 0%nat).
Proof.
  simpl.
  destruct (Nat.leb_spec n c), (Nat.ltb_spec 0 n), (Nat.eqb_spec n 0);
    simpl; lia.
Qed.

(** X11: [removeAccount] removes every account that carries the id of
    its argument and no other, keeping the order of the rest; it
    deletes the usage record of that id and no other; afterwards the
    cursor is a position of the pool, or 0 when the pool is empty; and
    removing an id that is not in the pool leaves the accounts as they
    were. *)
Theorem removeAccount_effect (account : ManagedAccount)
    (m : AccountManager) :
  let m' := removeAccount account m in
  (Acct.id account ∉ ids m')
  ∧ (∀ a, a ∈ accounts m' ↔ a ∈ accounts m ∧ Acct.id a ≠ Acct.id account)
  ∧ (accounts m' `sublist_of` accounts m)
  ∧ (∀ k, k ≠ Acct.id account → usage m' !! k = usage m !! k)
  ∧ usage m' !! Acct.id account = None
  ∧ ((cursor m' < length (accounts m'))%nat
     ∨ (accounts m' = [] ∧ cursor m' = 0%nat))
  ∧ (Acct.id account ∉ ids m → accounts m' = accounts m).
Proof.
  intros m'. unfold m', ids, removeAccount. simpl.
  set (keep := fun a => negb (String.eqb (Acct.id a) (Acct.id account))).
  split.
  { intros (a & Hid & Ha)%list_elem_of_fmap.
    apply filter_other_ids in Ha as [_ Hne]. congruence. }
  split; [intros a; apply filter_other_ids|].
  split.
  { induction (accounts m) as [|x l IH]; simpl; [constructor|].
    destruct (keep x); [apply sublist_skip|apply sublist_cons]; exact IH. }
  split; [intros k Hk; apply lookup_delete_ne; auto|].
  split; [apply lookup_delete_eq|].
  split.
  { pose proof (cursor_clamp (length (List.filter keep (accounts m)))
                  (cursor m)) as [Hlt|[Hz Hc]].
    - left. exact Hlt.
    - right. split; [apply nil_length_inv, Hz|exact Hc]. }
  intros Hn. induction (accounts m) as [|x l IH]; simpl; [reflexivity|].
  assert (Hx : keep x = true).
  { unfold keep. apply negb_true_iff, String.eqb_neq. intros Hid.
    apply Hn. rewrite fmap_cons, Hid. constructor. }
  rewrite Hx. f_equal. apply IH. intros Hin. apply Hn.
  rewrite fmap_cons. apply elem_of_cons. auto.
Qed.

(** ** Unique ids *)

Lemma NoDup_fmap_filter {A B} (f : A → B) (P : A → bool) (l : list A) :
  NoDup (f <$> l) → NoDup (f <$> List.filter P l).
Proof.
  induction l as [|x l IH]; simpl; [auto|].
  rewrite ?fmap_cons, NoDup_cons. intros [Hx Hl].
  destruct (P x); [|auto].
  rewrite ?fmap_cons. apply NoDup_cons. split; [|auto].
  intros (y & Hxy & Hy)%list_elem_of_fmap. apply Hx.
  apply list_elem_of_fmap. exists y. split; [auto|].
  apply list_elem_of_In in Hy. apply filter_In in Hy as [Hy _].
  apply list_elem_of_In. exact Hy.
Qed.

Section UniqueIds.

Variable decode : string → RefreshParts.

Lemma step_unique_ids op (st : State) :
  unique_ids st.1 → unique_ids (step decode op st).1.
Proof.
  destruct st as [m w]. unfold unique_ids, ids.
  destruct op; simpl; intros Hnd.
  - destruct (getCurrentOrNext_frame now now' m) as [-> _]. exact Hnd.
  - unfold updateUsage. simpl.
    destruct (findIndex accountId (accounts m)); [|exact Hnd].
    rewrite ids_alter by auto with keeps_id. exact Hnd.
  - unfold addAccount.
    destruct (findIndex (Acct.id account) (accounts m)) as [i|] eqn:Hf;
      simpl.
    + apply findIndex_Some in Hf as (a & Hi & Hid).
      rewrite (ids_insert_same _ _ a) by auto. exact Hnd.
    + apply findIndex_None in Hf.
      rewrite fmap_app. simpl. apply NoDup_app. split; [exact Hnd|].
      split; [|apply NoDup_singleton].
      intros k Hk [->|Hin]%elem_of_cons; [contradiction|inversion Hin].
  - apply NoDup_fmap_filter. exact Hnd.
  - unfold updateFromAuth. destruct (findIndex _ _); [|exact Hnd].
    simpl. rewrite ids_alter by auto with keeps_id. exact Hnd.
  - unfold markRateLimited. destruct (findIndex _ _); [|exact Hnd].
    simpl. rewrite ids_alter by reflexivity. exact Hnd.
  - unfold markUnhealthy. destruct (findIndex _ _); [|exact Hnd].
    simpl. rewrite ids_alter by reflexivity. exact Hnd.
  - exact Hnd.
Qed.

End UniqueIds.

(** X12: in a pool whose accounts have pairwise different ids, every
    sequence of the public operations ([getCurrentOrNext],
    [updateUsage], [addAccount], [removeAccount], [updateFromAuth],
    [markRateLimited], [markUnhealthy], [saveToDisk]) leaves a pool
    whose accounts have pairwise different ids. *)
Theorem ids_stay_unique (decode : string → RefreshParts) (ops : list Op)
    (st : State) :
  unique_ids st.1 → unique_ids (run decode ops st).1.
Proof.
  revert st. induction ops as [|op ops IH]; intros st Hnd; [exact Hnd|].
  simpl. apply IH. apply step_unique_ids. exact Hnd.
Qed.

(** [sample_run] from [lu_pool], whose ids are A, B and C. *)
Lemma ids_stay_unique_witness :
  unique_ids (run plain_codec sample_run (lu_pool, empty_world)).1.
Proof.
  apply (ids_stay_unique plain_codec sample_run (lu_pool, empty_world)).
  unfold unique_ids. vm_compute.
  repeat (constructor; [rewrite ?elem_of_cons, ?elem_of_nil;
                        intuition discriminate|]).
  constructor.
Defined.

(** ** Health and rate limits *)

(** The account at a position after a call of [getCurrentOrNext]: the
    account the filter left there, touched if it is the one returned. *)
Lemma getCurrentOrNext_at now now' m (i : nat) a :
  accounts m !! i = Some a →
  accounts (getCurrentOrNext now now' m).2 !! i = Some (filter_step now a).2
  ∨ ((getCurrentOrNext now now' m).1 = Some i
     ∧ accounts (getCurrentOrNext now now' m).2 !! i
       = Some (touch now (filter_step now a).2)).
Proof.
  intros Hi.
  assert (Hf : after_filter now (accounts m) !! i = Some (filter_step now a).2).
  { unfold after_filter. rewrite list_lookup_fmap, Hi. reflexivity. }
  destruct (getCurrentOrNext_shape now now' m)
    as [(_ & _ & ->)|(p & Hr & _ & -> & _)].
  - left. exact Hf.
  - destruct (decide (p = i)) as [->|Hne].
    + right. split; [exact Hr|].
      rewrite list_lookup_alter_eq, Hf. reflexivity.
    + left. rewrite list_lookup_alter_ne by exact Hne. exact Hf.
Qed.

(** A call never returns an account that the predicate rejects at both
    clock readings and that the filter does not change. *)
Lemma getCurrentOrNext_skips now now' m (i : nat) a :
  accounts m !! i = Some a →
  isAccountAvailable now a = false →
  isAccountAvailable now' a = false →
  (getCurrentOrNext now now' m).1 ≠ Some i.
Proof.
  intros Hi Hnow Hnow' Hr.
  destruct (getCurrentOrNext_shape now now' m)
    as [(Hn & _)|(p & Hp & _ & _ & _ & _ & _ & Hwhere)]; [congruence|].
  assert (p = i) as -> by congruence.
  destruct Hwhere as [[a' Hin]|(_ & _ & cur & Hcur & Hav)].
  - apply availableAccounts_elem in Hin as (b & Hb & Hav & _). congruence.
  - unfold after_filter in Hcur. rewrite list_lookup_fmap, Hi in Hcur.
    simpl in Hcur. injection Hcur as <-.
    assert ((filter_step now a).2 = a) as Heq.
    { pose proof (filter_step_result now a) as Hres. rewrite Hnow in Hres.
      unfold filter_step in *.
      destruct (negb (Acct.isHealthy a)).
      - destruct (Js.set_and_reached _ _); [discriminate|reflexivity].
      - destruct (Js.set_and_pending _ _); reflexivity. }
    rewrite Heq in Hav. congruence.
Qed.

Lemma alter_found (f : ManagedAccount → ManagedAccount) accountId
    (accs : list ManagedAccount) (i : nat) :
  findIndex accountId accs = Some i →
  ∃ a, accs !! i = Some a ∧ Acct.id a = accountId
       ∧ alter f i accs !! i = Some (f a)
       ∧ ∀ j, j ≠ i → alter f i accs !! j = accs !! j.
Proof.
  intros (a & Hi & Hid)%findIndex_Some. exists a.
  split; [exact Hi|]. split; [exact Hid|]. split.
  - rewrite list_lookup_alter_eq, Hi. reflexivity.
  - intros j Hne. apply list_lookup_alter_ne. auto.
Qed.

(** X13: [markUnhealthy] on an account of the pool makes it unhealthy
    with the given reason and changes no other account; from then on
    [isAccountAvailable] accepts it exactly at the times at which the
    given recovery time is set (not omitted and not 0) and reached;
    [getCurrentOrNext] does not return it at clock readings before
    that, and never when the recovery time is omitted; the first call
    of [getCurrentOrNext] at or after the recovery time leaves it
    healthy with [unhealthyReason] and [recoveryTime] cleared. *)
Theorem markUnhealthy_lifecycle (account : ManagedAccount) (reason : string)
    (recoveryTime : option Z) (m : AccountManager) (i : nat) :
  findIndex (Acct.id account) (accounts m) = Some i →
  let m' := markUnhealthy account reason recoveryTime m in
  (∃ a', accounts m' !! i = Some a'
     ∧ Acct.isHealthy a' = false
     ∧ Acct.unhealthyReason a' = Some reason
     ∧ Acct.recoveryTime a' = recoveryTime
     ∧ ∀ now, isAccountAvailable now a'
              = Js.set_and_reached recoveryTime now)
  ∧ (∀ j, j ≠ i → accounts m' !! j = accounts m !! j)
  ∧ (∀ now now',
       Js.set_and_reached recoveryTime now = false →
       Js.set_and_reached recoveryTime now' = false →
       (getCurrentOrNext now now' m').1 ≠ Some i)
  ∧ (recoveryTime = None →
     ∀ now now', (getCurrentOrNext now now' m').1 ≠ Some i)
  ∧ (∀ now now',
       Js.set_and_reached recoveryTime now = true →
       ∃ a'', accounts (getCurrentOrNext now now' m').2 !! i = Some a''
              ∧ Acct.isHealthy a'' = true
              ∧ Acct.unhealthyReason a'' = None
              ∧ Acct.recoveryTime a'' = None).
Proof.
  intros Hf m'. unfold m', markUnhealthy. rewrite Hf. simpl.
  set (f := fun acc =>
         Acct.set_recoveryTime recoveryTime
           (Acct.set_unhealthyReason (Some reason)
              (Acct.set_isHealthy false acc))).
  destruct (alter_found f _ _ _ Hf) as (a & Hi & Hid & Hat & Hother).
  assert (Hav : ∀ now, isAccountAvailable now (f a)
                       = Js.set_and_reached recoveryTime now).
  { intros now. unfold isAccountAvailable, f. simpl.
    destruct (Js.set_and_reached recoveryTime now); reflexivity. }
  assert (Hskip : ∀ now now',
            Js.set_and_reached recoveryTime now = false →
            Js.set_and_reached recoveryTime now' = false →
            (getCurrentOrNext now now'
               (with_accounts (alter f i (accounts m)) m)).1 ≠ Some i).
  { intros now now' Hn Hn'.
    apply (getCurrentOrNext_skips now now' _ i (f a)); simpl;
      rewrite ?Hav; auto. }
  split; [exists (f a); repeat split; auto|].
  split; [exact Hother|]. split; [exact Hskip|]. split.
  - intros -> now now'. apply Hskip; reflexivity.
  - intros now now' Hreach.
    assert (Hstep : filter_step now (f a) = (true, recover (f a))).
    { apply filter_step_recovers; [reflexivity|exact Hreach]. }
    destruct (getCurrentOrNext_at now now'
                (with_accounts (alter f i (accounts m)) m) i (f a) Hat)
      as [Hl|[_ Hl]]; rewrite Hl, Hstep; simpl; eexists;
      (split; [reflexivity|]); repeat split; reflexivity.
Qed.

(** [markUnhealthy] without a recovery time on account B of [lu_pool]. *)
Lemma markUnhealthy_lifecycle_witness :
  ∃ a',
    accounts
      (markUnhealthy (plain_account "B" None None) "revoked" None lu_pool)
      !! 1%nat = Some a'
    ∧ Acct.isHealthy a' = false
    ∧ Acct.unhealthyReason a' = Some "revoked".
Proof.
  pose proof (markUnhealthy_lifecycle (plain_account "B" None None)
                "revoked" None lu_pool 1 eq_refl) as H.
  destruct H as ((a' & H1 & H2 & H3 & _) & _).
  exists a'. repeat split; assumption.
Defined.

(** The wait is positive and at most the time left of any account whose
    reset time lies ahead. *)
Lemma getMinWaitTime_bound now m a :
  a ∈ accounts m →
  0 < Js.or_zero (Acct.rateLimitResetTime a) - now →
  0 < getMinWaitTime now m
  <= Js.or_zero (Acct.rateLimitResetTime a) - now.
Proof.
  intros Ha Hpos. unfold getMinWaitTime.
  set (left := fun a => Js.or_zero (Acct.rateLimitResetTime a) - now).
  set (waits := List.filter (fun t => 0 <? t) (left <$> accounts m)).
  assert (Hw : ∀ t, t ∈ waits → 0 < t).
  { intros t. unfold waits.
    rewrite list_elem_of_In, filter_In, Z.ltb_lt. tauto. }
  assert (Hin : left a ∈ waits).
  { unfold waits. rewrite list_elem_of_In, filter_In, <- list_elem_of_In.
    split; [apply list_elem_of_fmap; eauto|apply Z.ltb_lt, Hpos]. }
  destruct waits as [|t ts]; [inversion Hin|].
  pose proof (foldr_min_elem t ts) as Hel.
  pose proof (foldr_min_le t ts) as [Hle1 Hle2].
  split; [apply Hw, Hel|].
  apply elem_of_cons in Hin as [Heq|Hin].
  - fold (left a). rewrite Heq. exact Hle1.
  - apply Hle2, Hin.
Qed.

(** X14: [markRateLimited] on an account of the pool sets its reset
    time to the clock reading plus the delay and changes neither its
    health nor any other account; a healthy account is then rejected by
    [isAccountAvailable] at every time before the reset time and
    accepted from the reset time on, and [getCurrentOrNext] does not
    return it before the reset time; with a positive delay
    [getMinWaitTime] at the same clock reading is positive and at most
    the delay. *)
Theorem markRateLimited_window (now retryAfterMs : Z)
    (account : ManagedAccount) (m : AccountManager) (i : nat) :
  findIndex (Acct.id account) (accounts m) = Some i →
  now + retryAfterMs ≠ 0 →
  let m' := markRateLimited now account retryAfterMs m in
  (∃ a a', accounts m !! i = Some a ∧ accounts m' !! i = Some a'
     ∧ Acct.rateLimitResetTime a' = Some (now + retryAfterMs)
     ∧ Acct.isHealthy a' = Acct.isHealthy a
     ∧ (Acct.isHealthy a = true →
        ∀ t, isAccountAvailable t a' = (now + retryAfterMs <=? t)))
  ∧ (∀ j, j ≠ i → accounts m' !! j = accounts m !! j)
  ∧ (∀ a, accounts m !! i = Some a → Acct.isHealthy a = true →
     ∀ t t', t < now + retryAfterMs → t' < now + retryAfterMs →
       (getCurrentOrNext t t' m').1 ≠ Some i)
  ∧ (0 < retryAfterMs → 0 < getMinWaitTime now m' <= retryAfterMs).
Proof.
  intros Hf Hnz m'. unfold m', markRateLimited. rewrite Hf. simpl.
  set (f := Acct.set_rateLimitResetTime (Some (now + retryAfterMs))).
  destruct (alter_found f _ _ _ Hf) as (a & Hi & Hid & Hat & Hother).
  assert (Hav : Acct.isHealthy a = true →
                ∀ t, isAccountAvailable t (f a) = (now + retryAfterMs <=? t)).
  { intros Hh t. unfold isAccountAvailable, f. simpl. rewrite Hh. simpl.
    destruct (Z.eqb_spec (now + retryAfterMs) 0) as [?|_]; [contradiction|].
    simpl. rewrite Z.leb_antisym.
    destruct (t <? now + retryAfterMs); reflexivity. }
  split; [exists a, (f a); repeat split; auto|].
  split; [exact Hother|]. split.
  - intros a0 Ha0 Hh t t' Ht Ht'.
    assert (a0 = a) as -> by congruence.
    apply (getCurrentOrNext_skips t t' _ i (f a)); simpl; auto;
      rewrite Hav by exact Hh; apply Z.leb_gt; assumption.
  - intros Hpos.
    assert (Hin : f a ∈ alter f i (accounts m))
      by (apply list_elem_of_lookup; eauto).
    pose proof (getMinWaitTime_bound now
                  (with_accounts (alter f i (accounts m)) m) (f a) Hin)
      as Hb.
    simpl in Hb. lia.
Qed.

(** Account B of [lu_pool], rate limited at time 1000 for 500 ms. *)
Lemma markRateLimited_window_witness :
  0 < getMinWaitTime 1000
        (markRateLimited 1000 (plain_account "B" None None) 500 lu_pool)
  <= 500.
Proof.
  pose proof (markRateLimited_window 1000 500 (plain_account "B" None None)
                lu_pool 1 eq_refl ltac:(lia)) as H.
  destruct H as (_ & _ & _ & H). apply H. lia.
Defined.

(** ** Credential refresh *)

Lemma apply_auth_keeps decode now auth a :
  let a' := apply_auth decode now auth a in
  Acct.id a' = Acct.id a
  ∧ Acct.isHealthy a' = Acct.isHealthy a
  ∧ Acct.recoveryTime a' = Acct.recoveryTime a
  ∧ Acct.unhealthyReason a' = Acct.unhealthyReason a
  ∧ Acct.rateLimitResetTime a' = Acct.rateLimitResetTime a
  ∧ Acct.usedCount a' = Acct.usedCount a
  ∧ Acct.limitCount a' = Acct.limitCount a
  ∧ Acct.accessToken a' = auth_access auth
  ∧ Acct.expiresAt a' = auth_expires auth
  ∧ Acct.lastUsed a' = Some now
  ∧ Acct.refreshToken a'
    = parts_refreshToken (decode (auth_refresh auth)).
Proof.
  unfold apply_auth.
  repeat match goal with |- context [if ?b then _ else _] => destruct b end;
    repeat split; reflexivity.
Qed.

Lemma apply_auth_email decode now auth a :
  Acct.realEmail (apply_auth decode now auth a)
  = match auth_email auth with
    | Some e =>
        if String.eqb e "" || String.eqb e ANONYMOUS_EMAIL
        then Acct.realEmail a
        else Some e
    | None => Acct.realEmail a
    end.
Proof.
  unfold apply_auth.
  destruct (auth_email auth) as [e|]; simpl.
  - destruct (String.eqb e "") eqn:He; simpl.
    + repeat match goal with
             | |- context [if ?b then _ else _] => destruct b
             end; reflexivity.
    + destruct (String.eqb e ANONYMOUS_EMAIL); simpl;
        repeat match goal with
               | |- context [if ?b then _ else _] => destruct b
               end; reflexivity.
  - repeat match goal with
           | |- context [if ?b then _ else _] => destruct b
           end; reflexivity.
Qed.

(** X15: [updateFromAuth] for an id that is not in the pool changes
    nothing; otherwise it changes only the first account with that id:
    the access token, the expiry and the refresh token are replaced and
    [lastUsed] is set to the clock reading; the resolved email is
    replaced only by a non-empty address other than the anonymous
    Builder ID address; the health, the rate limit and the quota
    counters of the account stay as they are, so a token refresh never
    changes whether [isAccountAvailable] accepts the account. *)
Theorem updateFromAuth_effect (decode : string → RefreshParts) (now : Z)
    (account : ManagedAccount) (auth : KiroAuthDetails)
    (m : AccountManager) :
  let m' := updateFromAuth decode now account auth m in
  (findIndex (Acct.id account) (accounts m) = None → m' = m)
  ∧ usage m' = usage m ∧ cursor m' = cursor m ∧ ids m' = ids m
  ∧ (∀ i, findIndex (Acct.id account) (accounts m) = Some i →
       (∀ j, j ≠ i → accounts m' !! j = accounts m !! j)
       ∧ ∃ a a', accounts m !! i = Some a ∧ accounts m' !! i = Some a'
           ∧ Acct.accessToken a' = auth_access auth
           ∧ Acct.expiresAt a' = auth_expires auth
           ∧ Acct.lastUsed a' = Some now
           ∧ Acct.refreshToken a'
             = parts_refreshToken (decode (auth_refresh auth))
           ∧ (auth_email auth = Some ANONYMOUS_EMAIL
              ∨ auth_email auth = None →
              Acct.realEmail a' = Acct.realEmail a)
           ∧ Acct.usedCount a' = Acct.usedCount a
           ∧ Acct.limitCount a' = Acct.limitCount a
           ∧ Acct.isHealthy a' = Acct.isHealthy a
           ∧ ∀ t, isAccountAvailable t a' = isAccountAvailable t a).
Proof.
  intros m'. unfold m', updateFromAuth, ids.
  destruct (findIndex (Acct.id account) (accounts m)) as [i|] eqn:Hf.
  - split; [discriminate|]. simpl.
    split; [reflexivity|]. split; [reflexivity|].
    split; [apply ids_alter; auto with keeps_id|].
    intros i' [= <-].
    destruct (alter_found (apply_auth decode now auth) _ _ _ Hf)
      as (a & Hi & Hid & Hat & Hother).
    split; [exact Hother|].
    exists a, (apply_auth decode now auth a).
    destruct (apply_auth_keeps decode now auth a)
      as (K1 & K2 & K3 & K4 & K5 & K6 & K7 & K8 & K9 & K10 & K11).
    split; [exact Hi|]. split; [exact Hat|].
    repeat split; auto.
    + rewrite apply_auth_email. intros [->| ->]; [|reflexivity].
      rewrite String.eqb_refl, orb_true_r. reflexivity.
    + intros t. unfold isAccountAvailable. rewrite K2, K3, K5. reflexivity.
  - split; [reflexivity|]. repeat split; intros; discriminate.
Qed.

(** ** Quota synchronisation *)







Lemma select_many_frame (times : list (Z * Z)) (m : AccountManager) :
  Acct.id <$> accounts (select_many times m).2 = Acct.id <$> accounts m
  ∧ usage (select_many times m).2 = usage m.
Proof.
  revert m. induction times as [|t times IH]; intros m; [auto|].
  cbn [select_many snd].
  destruct (IH (getCurrentOrNext t.1 t.2 m).2) as [-> ->].
  apply getCurrentOrNext_frame.
Qed.

(** The pool that a save without failing call followed by a load
    builds. *)
Lemma save_then_load (m : AccountManager) (w : World)
    (s : option AccountSelectionStrategy) :
  ∃ w1 w2,
    saveToDisk m no_faults w = (w1, inr ())
    ∧ loadFromDisk s no_faults w1
      = (w2, inr (constructor (of_metadata <$> (to_metadata <$> accounts m))
                    (usage m) (default sticky s))).
Proof.
  destruct (saveToDisk_ok m w) as (w1 & Hsave & Hacc & Huse).
  destruct (loadFromDisk_ok s w1 _ _ Hacc Huse) as (w2 & Hload).
  exists w1, w2. split; [exact Hsave|exact Hload].
Qed.

(** X17: what [updateUsage] reports for an id other than [__proto__]
    survives a restart, and what selection counts locally does not:
    after [updateUsage], any number of [getCurrentOrNext] calls, a save
    and a load (no call failing), every account with that id has
    exactly the reported [usedCount], [limitCount] and [realEmail], and
    an account whose id has no usage record has no [usedCount] at all;
    the pool has the ids it had.  The id [__proto__] is excluded: the
    assignment [this.usage[accountId] = ...] sets the prototype of the
    usage object for that id and adds no key, so nothing of the report
    is written to disk. *)
Theorem synced_counters_survive_restart (now : Z) (accountId : string)
    (metadata : UsageUpdate) (times : list (Z * Z)) (m : AccountManager)
    (w : World) (s : option AccountSelectionStrategy) :
  accountId ≠ "__proto__" →
  let m2 := (select_many times (updateUsage now accountId metadata m)).2 in
  ∃ w1 w2 m3,
    saveToDisk m2 no_faults w = (w1, inr ())
    ∧ loadFromDisk s no_faults w1 = (w2, inr m3)
    ∧ ids m3 = ids m
    ∧ (∀ a3, a3 ∈ accounts m3 → Acct.id a3 = accountId →
         Acct.usedCount a3 = Some (upd_usedCount metadata)
         ∧ Acct.limitCount a3 = Some (upd_limitCount metadata)
         ∧ Acct.realEmail a3 = upd_realEmail metadata)
    ∧ (∀ a3, a3 ∈ accounts m3 → Acct.id a3 ≠ accountId →
         usage m !! Acct.id a3 = None →
         Acct.usedCount a3 = None ∧ Acct.limitCount a3 = None).
Proof.
  intros _ m2.
  destruct (save_then_load m2 w s) as (w1 & w2 & Hsave & Hload).
  exists w1, w2. eexists. split; [exact Hsave|]. split; [exact Hload|].
  destruct (select_many_frame times (updateUsage now accountId metadata m))
    as [Hids Hu]. fold m2 in Hids, Hu.
  assert (Hu' : usage m2
                = <[accountId :=
                      Usage.mk (upd_usedCount metadata)
                        (upd_limitCount metadata)
                        (upd_realEmail metadata) now]> (usage m)).
  { rewrite Hu. reflexivity. }
  assert (Hloaded : ∀ a3,
            a3 ∈ sync_usage (usage m2)
                   <$> (of_metadata <$> (to_metadata <$> accounts m2)) →
            usage_from (usage m2) a3).
  { intros a3 (b & -> & Hb)%list_elem_of_fmap.
    apply list_elem_of_fmap in Hb as (c & -> & _).
    apply sync_usage_from; reflexivity. }
  simpl. split; [|split].
  - unfold ids. simpl. rewrite <- !list_fmap_compose.
    transitivity (Acct.id <$> accounts m2).
    + apply list_fmap_ext. intros i a _. simpl.
      unfold sync_usage. destruct (usage m2 !! _); reflexivity.
    + rewrite Hids. unfold updateUsage. simpl.
      destruct (findIndex accountId (accounts m)); [|reflexivity].
      apply ids_alter. auto with keeps_id.
  - intros a3 Ha3 Hid. destruct (Hloaded a3 Ha3) as (H1 & H2 & H3).
    rewrite H1, H2, H3, Hid, Hu', lookup_insert_eq. auto.
  - intros a3 Ha3 Hid Hnone. destruct (Hloaded a3 Ha3) as (H1 & H2 & _).
    rewrite H1, H2, Hu', lookup_insert_ne, Hnone by auto. auto.
Qed.

(** A report for B in [lu_pool], one selection, then a save and a load
    on an empty disk. *)
Lemma synced_counters_survive_restart_witness :
  ∃ w1 w2 m3,
    saveToDisk
      (select_many [(7, 7)]
         (updateUsage 5 "B"
            {| upd_usedCount := 40; upd_limitCount := 100;
               upd_realEmail := None |} lu_pool)).2
      no_faults empty_world = (w1, inr ())
    ∧ loadFromDisk None no_faults w1 = (w2, inr m3)
    ∧ ids m3 = ids lu_pool.
Proof.
  assert (Hid : "B" ≠ "__proto__") by discriminate.
  destruct (synced_counters_survive_restart 5 "B"
              {| upd_usedCount := 40; upd_limitCount := 100;
                 upd_realEmail := None |}
              [(7, 7)] lu_pool empty_world None Hid)
    as (w1 & w2 & m3 & Hsave & Hload & Hids & _).
  exists w1, w2, m3. repeat split; assumption.
Defined.



(** ** Reading and writing the documents *)

(** X19: [ensureFileExists] that returns normally leaves the file in
    place; it never touches the file of the other kind; when the file
    is there and [fs.access] does not fail, it returns normally and
    changes nothing on disk; when it has to create the file, the file
    holds the empty default document of its kind. *)
Theorem ensureFileExists_effect (k : DocKind) (faults : Faults) (w : World) :
  let r := ensureFileExists k faults w in
  (r.2 = inr () → file_exists k (disk r.1) = true)
  ∧ match k with
    | accounts_kind => usageFile (disk r.1) = usageFile (disk w)
    | usage_kind => accountsFile (disk r.1) = accountsFile (disk w)
    end
  ∧ (file_exists k (disk w) = true → faults (fs_access k) = false →
     r.2 = inr () ∧ disk r.1 = disk w)
  ∧ (file_exists k (disk w) = false → r.2 = inr () →
     match k with
     | accounts_kind => accountsFile (disk r.1) = Holds defaultStorage
     | usage_kind => usageFile (disk r.1) = Holds defaultUsage
     end).
Proof.
  destruct w as [[af uf] tr].
  unfold ensureFileExists, access, write_default, try_catch, call, must_exist,
    put_accounts, put_usage, record, mbind, IO_bind, io_bind.
  simpl.
  destruct (faults (fs_access k)) eqn:Ha, (faults (fs_mkdir k)) eqn:Hm,
    (faults (fs_writeFile k)) eqn:Hw, k, af, uf; simpl;
    repeat split; try reflexivity; try discriminate; auto.
Qed.

Lemma loadAccounts_total (faults : Faults) (w : World) :
  ∃ w' st,
    loadAccounts faults w = (w', inr st)
    ∧ (st = defaultStorage ∨ accountsFile (disk w) = Holds st)
    ∧ usageFile (disk w') = usageFile (disk w).
Proof.
  destruct w as [[af uf] tr]. do 2 io_unfold.
  destruct (faults (fs_access accounts_kind)),
    (faults (fs_mkdir accounts_kind)),
    (faults (fs_writeFile accounts_kind)),
    (faults (fs_readFile accounts_kind)), af; simpl;
    do 2 eexists; (split; [reflexivity|]); simpl; auto.
Qed.

Lemma loadUsage_total (faults : Faults) (w : World) :
  ∃ w' us,
    loadUsage faults w = (w', inr us)
    ∧ (us = defaultUsage ∨ usageFile (disk w) = Holds us).
Proof.
  destruct w as [[af uf] tr]. do 2 io_unfold.
  destruct (faults (fs_access usage_kind)),
    (faults (fs_mkdir usage_kind)),
    (faults (fs_writeFile usage_kind)),
    (faults (fs_readFile usage_kind)), uf; simpl;
    do 2 eexists; (split; [reflexivity|]); simpl; auto.
Qed.

(** X20: when each of the two files is absent, holds text that
    [JSON.parse] rejects, or holds a document of its kind (the states
    of a [File]), [loadFromDisk] does not throw, whichever calls of the
    file system fail; the pool it builds has the cursor at 0 and the
    given strategy (sticky when none is given) and no account has a
    [lastUsed] stamp; its accounts carry, in order, the ids of the
    entries of the account document on disk, or there are none at all
    (as when that document is absent, does not parse or cannot be
    read); its usage map is that of the usage document on disk or
    empty.  A file whose text parses to JSON of another shape is not
    covered: on [{}], for one, [storage.accounts.map] throws. *)
Theorem loadFromDisk_survives_faults (s : option AccountSelectionStrategy)
    (faults : Faults) (w : World) :
  ∃ w' m,
    loadFromDisk s faults w = (w', inr m)
    ∧ cursor m = 0%nat
    ∧ strategy m = default sticky s
    ∧ (∀ a, a ∈ accounts m → Acct.lastUsed a = None)
    ∧ (accounts m = []
       ∨ ∃ st, accountsFile (disk w) = Holds st
               ∧ ids m = Meta.id <$> as_accounts st)
    ∧ (usage m = ∅
       ∨ ∃ us, usageFile (disk w) = Holds us ∧ usage m = us_usage us).
Proof.
  destruct (loadAccounts_total faults w) as (w1 & st & Hla & Hst & Hkeep).
  destruct (loadUsage_total faults w1) as (w2 & us & Hlu & Hus).
  exists w2. eexists. split.
  { unfold loadFromDisk, mbind, IO_bind, io_bind. rewrite Hla, Hlu.
    reflexivity. }
  simpl. split; [reflexivity|]. split; [reflexivity|].
  split; [|split].
  - intros a (b & -> & (meta & -> & _)%list_elem_of_fmap)%list_elem_of_fmap.
    unfold sync_usage. destruct (us_usage us !! _); reflexivity.
  - destruct Hst as [->|Hh]; [left; reflexivity|].
    right. exists st. split; [exact Hh|].
    unfold ids. simpl. rewrite <- !list_fmap_compose.
    apply list_fmap_ext. intros i meta _. simpl.
    unfold sync_usage. destruct (us_usage us !! _); reflexivity.
  - destruct Hus as [->|Hh]; [left; reflexivity|].
    right. exists us. rewrite <- Hkeep. auto.
Qed.

(** A file that is there and can be accessed is left alone. *)
Lemma ensureFileExists_present (k : DocKind) (faults : Faults) (w : World) :
  file_exists k (disk w) = true → faults (fs_access k) = false →
  (ensureFileExists k faults w).2 = inr ()
  ∧ disk (ensureFileExists k faults w).1 = disk w.
Proof.
  destruct w as [[af uf] tr].
  unfold ensureFileExists, access, try_catch, call, must_exist, record,
    mbind, IO_bind, io_bind.
  simpl. intros Hex ->. simpl. rewrite Hex. auto.
Qed.

Lemma withFileLock_accounts_disk (storage : AccountStorage)
    (faults : Faults) (w : World) :
  let e := ensureFileExists accounts_kind faults w in
  let r := saveAccounts storage faults w in
  usageFile (disk r.1) = usageFile (disk w)
  ∧ match r.2 with
    | inr _ => accountsFile (disk r.1) = Holds storage
    | inl _ => accountsFile (disk r.1) = accountsFile (disk e.1)
    end
  ∧ (r.2 = inr () ↔
       e.2 = inr ()
       ∧ faults (lockfile_lock accounts_kind) = false
       ∧ faults (fs_writeTemp accounts_kind) = false
       ∧ faults (fs_rename accounts_kind) = false).
Proof.
  destruct w as [[af uf] tr]. do 2 io_unfold.
  destruct (faults (fs_access accounts_kind)),
    (faults (fs_mkdir accounts_kind)),
    (faults (fs_writeFile accounts_kind)),
    (faults (lockfile_lock accounts_kind)),
    (faults (fs_writeTemp accounts_kind)),
    (faults (fs_rename accounts_kind)),
    (faults (lock_release accounts_kind)), af; simpl;
    (split; [reflexivity|]); (split; [reflexivity|]);
    split; try discriminate; try (intros (? & ? & ? & ?); discriminate);
    auto.
Qed.

Lemma withFileLock_usage_disk (storage : UsageStorage)
    (faults : Faults) (w : World) :
  let e := ensureFileExists usage_kind faults w in
  let r := saveUsage storage faults w in
  accountsFile (disk r.1) = accountsFile (disk w)
  ∧ match r.2 with
    | inr _ => usageFile (disk r.1) = Holds storage
    | inl _ => usageFile (disk r.1) = usageFile (disk e.1)
    end
  ∧ (r.2 = inr () ↔
       e.2 = inr ()
       ∧ faults (lockfile_lock usage_kind) = false
       ∧ faults (fs_writeTemp usage_kind) = false
       ∧ faults (fs_rename usage_kind) = false).
Proof.
  destruct w as [[af uf] tr]. do 2 io_unfold.
  destruct (faults (fs_access usage_kind)),
    (faults (fs_mkdir usage_kind)),
    (faults (fs_writeFile usage_kind)),
    (faults (lockfile_lock usage_kind)),
    (faults (fs_writeTemp usage_kind)),
    (faults (fs_rename usage_kind)),
    (faults (lock_release usage_kind)), uf; simpl;
    (split; [reflexivity|]); (split; [reflexivity|]);
    split; try discriminate; try (intros (? & ? & ? & ?); discriminate);
    auto.
Qed.

(** X21: [saveAccounts] and [saveUsage] write all or nothing: a call
    that returns normally leaves the given document in its file; a call
    that throws leaves the file as [ensureFileExists] left it, which is
    untouched when the file was there and could be accessed; the file
    of the other kind is never touched; the call returns normally
    exactly when ensuring the file, taking the lock, writing the
    temporary file and renaming it all succeed, so a failure to release
    the lock does not make it fail. *)
Theorem save_is_all_or_nothing (accountStorage : AccountStorage)
    (usageStorage : UsageStorage) (faults : Faults) (w : World) :
  (let e := ensureFileExists accounts_kind faults w in
   let r := saveAccounts accountStorage faults w in
   usageFile (disk r.1) = usageFile (disk w)
   ∧ match r.2 with
     | inr _ => accountsFile (disk r.1) = Holds accountStorage
     | inl _ => accountsFile (disk r.1) = accountsFile (disk e.1)
     end
   ∧ (file_exists accounts_kind (disk w) = true →
      faults (fs_access accounts_kind) = false →
      r.2 ≠ inr () → disk r.1 = disk w)
   ∧ (r.2 = inr () ↔
        e.2 = inr ()
        ∧ faults (lockfile_lock accounts_kind) = false
        ∧ faults (fs_writeTemp accounts_kind) = false
        ∧ faults (fs_rename accounts_kind) = false))
  ∧ (let e := ensureFileExists usage_kind faults w in
     let r := saveUsage usageStorage faults w in
     accountsFile (disk r.1) = accountsFile (disk w)
     ∧ match r.2 with
       | inr _ => usageFile (disk r.1) = Holds usageStorage
       | inl _ => usageFile (disk r.1) = usageFile (disk e.1)
       end
     ∧ (file_exists usage_kind (disk w) = true →
        faults (fs_access usage_kind) = false →
        r.2 ≠ inr () → disk r.1 = disk w)
     ∧ (r.2 = inr () ↔
          e.2 = inr ()
          ∧ faults (lockfile_lock usage_kind) = false
          ∧ faults (fs_writeTemp usage_kind) = false
          ∧ faults (fs_rename usage_kind) = false)).
Proof.
  split.
  - destruct (withFileLock_accounts_disk accountStorage faults w)
      as (Hother & Hfile & Hiff).
    split; [exact Hother|]. split; [exact Hfile|]. split; [|exact Hiff].
    intros Hex Hacc Hfail.
    destruct (ensureFileExists_present accounts_kind faults w Hex Hacc)
      as [_ Hdisk].
    destruct (saveAccounts accountStorage faults w) as [w' [e|[]]];
      simpl in *; [|congruence].
    rewrite Hdisk in Hfile.
    destruct (disk w'), (disk w). simpl in *. congruence.
  - destruct (withFileLock_usage_disk usageStorage faults w)
      as (Hother & Hfile & Hiff).
    split; [exact Hother|]. split; [exact Hfile|]. split; [|exact Hiff].
    intros Hex Hacc Hfail.
    destruct (ensureFileExists_present usage_kind faults w Hex Hacc)
      as [_ Hdisk].
    destruct (saveUsage usageStorage faults w) as [w' [e|[]]];
      simpl in *; [|congruence].
    rewrite Hdisk in Hfile.
    destruct (disk w'), (disk w). simpl in *. congruence.
Qed.

(** X22: [saveToDisk] that returns normally has left both documents of
    the pool on disk, the account document with [activeIndex] equal to
    the cursor, whichever calls failed on the way; the usage document
    is only ever changed after the account document of the pool has
    been written, so a save that throws while saving the accounts
    leaves the usage file as it was. *)
Theorem saveToDisk_order (m : AccountManager) (faults : Faults) (w : World) :
  let r := saveToDisk m faults w in
  let accountDoc :=
    {| as_version := 1;
       as_accounts := to_metadata <$> accounts m;
       as_activeIndex := Z.of_nat (cursor m) |} in
  (r.2 = inr () →
   accountsFile (disk r.1) = Holds accountDoc
   ∧ usageFile (disk r.1) = Holds {| us_version := 1; us_usage := usage m |})
  ∧ (usageFile (disk r.1) ≠ usageFile (disk w) →
     accountsFile (disk r.1) = Holds accountDoc)
  ∧ ((saveAccounts accountDoc faults w).2 ≠ inr () →
     r.2 = (saveAccounts accountDoc faults w).2
     ∧ usageFile (disk r.1) = usageFile (disk w)).
Proof.
  intros r accountDoc. unfold r, saveToDisk. fold accountDoc.
  unfold mbind, IO_bind, io_bind.
  destruct (withFileLock_accounts_disk accountDoc faults w)
    as (Hother & Hfile & _).
  destruct (saveAccounts accountDoc faults w) as [w1 [e|[]]]; simpl in *.
  - split; [discriminate|]. split; [congruence|]. auto.
  - destruct (withFileLock_usage_disk
                {| us_version := 1; us_usage := usage m |} faults w1)
      as (Hother2 & Hfile2 & _).
    destruct (saveUsage _ faults w1) as [w2 [e|[]]]; simpl in *.
    + split; [discriminate|]. split; [|congruence].
      intros _. congruence.
    + split; [intros _; split; congruence|].
      split; [intros _; congruence|congruence].
Qed.

(** ** The paths of the two documents *)

Lemma append_inj_l (s a b : string) : s +:+ a = s +:+ b → a = b.
Proof.
  induction s as [|c s IH]; simpl; [auto|].
  intros [= H]. auto.
Qed.

Lemma append_assoc (a b c : string) : (a +:+ b) +:+ c = a +:+ (b +:+ c).
Proof.
  induction a as [|x a IH]; [reflexivity|].
  change (String x ((a +:+ b) +:+ c) = String x (a +:+ (b +:+ c))).
  f_equal. exact IH.
Qed.

(** X23: the account document and the usage document are two different
    files of the same directory: for every configuration directory the
    two paths differ, so the locks of the two documents never coincide;
    without a directory from [xdg-basedir] both lie under
    [$HOME/.config/opencode]. *)
Theorem storage_paths_differ (xdgConfig : option string) (home : string) :
  getStoragePath xdgConfig home ≠ getUsagePath xdgConfig home
  ∧ (∀ dir, xdgConfig = Some dir → dir ≠ "" →
       getStoragePath xdgConfig home = dir +:+ "/opencode/kiro-accounts.json"
       ∧ getUsagePath xdgConfig home = dir +:+ "/opencode/kiro-usage.json")
  ∧ (Js.truthy_str xdgConfig = false →
     getStoragePath xdgConfig home
     = home +:+ "/.config/opencode/kiro-accounts.json"
     ∧ getUsagePath xdgConfig home
       = home +:+ "/.config/opencode/kiro-usage.json").
Proof.
  unfold getStoragePath, getUsagePath. split; [|split].
  - intros H%append_inj_l. discriminate.
  - intros dir -> Hne. unfold configDir. simpl.
    destruct (String.eqb_spec dir ""); [contradiction|]. auto.
  - intros Hf. unfold configDir, Js.or_str.
    destruct xdgConfig as [d|]; unfold Js.truthy_str in Hf.
    + apply negb_false_iff in Hf. rewrite Hf.
      rewrite !append_assoc. auto.
    + rewrite !append_assoc. auto.
Qed.

(** ** Notification debounce *)

(** X24: after [markToastShown] for an account index, a notification
    for the same index is suppressed exactly while less than the
    debounce window has passed since, and a notification for any other
    index is never suppressed; before any notification was shown, every
    index from 0 up is shown. *)
Theorem toast_debounce (now now' i j debounceMs : Z) (t : ToastState) :
  (shouldShowAccountToast now' j debounceMs (markToastShown now i t) = false
   ↔ j = i ∧ now' - now < debounceMs)
  ∧ (j ≠ i →
     shouldShowAccountToast now' j debounceMs (markToastShown now i t) = true)
  ∧ (debounceMs <= now' - now →
     shouldShowAccountToast now' j debounceMs (markToastShown now i t) = true)
  ∧ (0 <= j → shouldShowAccountToast now j debounceMs toast_initial = true).
Proof.
  unfold shouldShowAccountToast, markToastShown, toast_initial. simpl.
  destruct (Z.eqb_spec j i), (Z.ltb_spec (now' - now) debounceMs),
    (Z.eqb_spec j (-1)); simpl;
    repeat split; intros; try reflexivity; try discriminate; try lia;
    intuition (try discriminate; try lia).
Qed.
